(** * sarlac: first-match regular-expression substitution

    A shallow embedding of [python_sarlac/sarlac.py].  The program reads
    an ordered list of substitution rules, either from an ad-hoc
    match/replace pair given on the command line or from a YAML
    configuration file, and prints, for every input string, the result of
    the first rule whose pattern matches at the start of the string.

    Python values are embedded as the inductive type [pyval], exceptions as
    the type [exn], and a call that may raise as a [result].  The process
    state that the program changes (what was written to standard output,
    which files were opened) is threaded through the [IO] monad; the
    environment it only reads is the record [World].

    Python strings are embedded as [string]; the development is about
    strings of ASCII characters. *)

From Stdlib Require Import String Ascii List Arith Bool ZArith Lia.
Import ListNotations.
Open Scope string_scope.
Open Scope list_scope.

Set Warnings "-register-all".

(** ** Exceptions and results *)

(** The Python exceptions the program can raise.  [OSError] stands for
    the operating-system errors that have no constructor of their own.
    [Exit] is click's
    [click.exceptions.Exit], raised by [ctx.exit()].  [Unsupported] is not
    a Python exception: it marks pattern or template text outside the
    fragment of the [re] dialect that module [re] below embeds, so that
    the embedding never invents a behaviour for such text. *)
Inductive exn : Type :=
| IndexError
| KeyError (key : string)
| TypeError
| AttributeError
| FileNotFoundError
| PermissionError
| IsADirectoryError
| OSError
| RuntimeError
| YAMLError
| re_error
| Exit (code : nat)
| Unsupported.

Inductive result (A : Type) : Type :=
| Ok (a : A)
| Raise (e : exn).
Arguments Ok {A} a.
Arguments Raise {A} e.

Definition rbind {A B : Type} (c : result A) (k : A -> result B) : result B :=
  match c with
  | Ok a => k a
  | Raise e => Raise e
  end.

Declare Scope result_scope.
Delimit Scope result_scope with result.
Notation "x <- c ;; k" := (rbind c (fun x => k))
  (at level 61, c at next level, right associativity) : result_scope.

Fixpoint mapM {A B : Type} (f : A -> result B) (l : list A) : result (list B) :=
  match l with
  | [] => Ok []
  | a :: l' =>
      (b <- f a ;;
       bs <- mapM f l' ;;
       Ok (b :: bs))%result
  end.

(** ** Characters *)

Definition newline : ascii := ascii_of_nat 10.
Definition backslash : ascii := ascii_of_nat 92.
Definition nl : string := String newline "".

Definition in_range (lo hi : nat) (c : ascii) : bool :=
  let n := nat_of_ascii c in Nat.leb lo n && Nat.leb n hi.

Definition is_digit (c : ascii) : bool := in_range 48 57 c.
Definition is_ascii_letter (c : ascii) : bool :=
  in_range 65 90 c || in_range 97 122 c.
(** [\w] on ASCII text: letters, digits and the underscore. *)
Definition is_word (c : ascii) : bool :=
  is_ascii_letter c || is_digit c || Ascii.eqb c "_"%char.
(** ASCII white space as [str.isspace] and [\s] have it: TAB, LF, VT, FF,
    CR, the four separators 0x1c..0x1f, and the space. *)
Definition is_space (c : ascii) : bool :=
  in_range 9 13 c || in_range 28 32 c.

Definition digit_value (c : ascii) : nat := nat_of_ascii c - 48.

(** ** The [re] module *)

Module re.

(** The embedded fragment of the pattern language: literals, [.], the
    classes [\d \w \s] and their complements, the anchors [^] and [$],
    capturing groups, alternation, and the quantifiers [* + ?] in their
    greedy and lazy forms. *)

Inductive cclass : Type := Digit | Word | Space.

Inductive regex : Type :=
| Eps
| Lit (c : ascii)
| Dot
| Cls (k : cclass) (positive : bool)
| Bol
| Eol
| Cat (r1 r2 : regex)
| Alt (r1 r2 : regex)
| Star (greedy : bool) (r : regex)
| Plus (greedy : bool) (r : regex)
| Opt (greedy : bool) (r : regex)
| Group (n : nat) (r : regex).

(** A compiled pattern object: its program and [Pattern.groups]. *)
Record Pattern : Type := { prog : regex; groups : nat }.

Definition in_class (k : cclass) (c : ascii) : bool :=
  match k with
  | Digit => is_digit c
  | Word => is_word c
  | Space => is_space c
  end.

(** *** Matching

    The matcher is the backtracking matcher of the library seen as a
    function: from a state it returns every state in which the pattern
    can end, in the order in which backtracking would try them.  The head
    of the list is the match the library reports. *)

Record mstate : Type :=
  { pos : nat;                    (* index in the subject string *)
    rest : string;                (* the subject from [pos] on *)
    caps : list (nat * string) }. (* captured groups, newest first *)

Definition one_char (ok : ascii -> bool) (st : mstate) : list mstate :=
  match rest st with
  | String c s' =>
      if ok c then [ {| pos := S (pos st); rest := s'; caps := caps st |} ]
      else []
  | EmptyString => []
  end.

Definition at_end (s : string) : bool :=
  match s with
  | EmptyString => true
  | String c EmptyString => Ascii.eqb c newline
  | _ => false
  end.

(** The text between two states of one run. *)
Definition consumed (st st' : mstate) : string :=
  substring 0 (pos st' - pos st) (rest st).

(** Repetition.  After an iteration that consumed nothing the library
    does not try the body again and goes on with what follows the
    repetition.  So every iteration that is repeated shortens the
    remaining subject, and [fuel], one more than its length, is never
    exhausted. *)
Fixpoint star_loop (step : mstate -> list mstate) (greedy : bool)
    (fuel : nat) (st : mstate) : list mstate :=
  match fuel with
  | 0 => [st]
  | S fuel' =>
      let more :=
        flat_map (fun st' =>
                    if Nat.ltb (pos st) (pos st') then star_loop step greedy fuel' st'
                    else [st'])
                 (step st) in
      if greedy then more ++ [st] else st :: more
  end.

Definition star (step : mstate -> list mstate) (greedy : bool)
    (st : mstate) : list mstate :=
  star_loop step greedy (S (String.length (rest st))) st.

Fixpoint run (r : regex) : mstate -> list mstate :=
  match r with
  | Eps => fun st => [st]
  | Lit c => one_char (Ascii.eqb c)
  | Dot => one_char (fun c => negb (Ascii.eqb c newline))
  | Cls k positive => one_char (fun c => Bool.eqb (in_class k c) positive)
  | Bol => fun st => if Nat.eqb (pos st) 0 then [st] else []
  | Eol => fun st => if at_end (rest st) then [st] else []
  | Cat r1 r2 => fun st => flat_map (run r2) (run r1 st)
  | Alt r1 r2 => fun st => run r1 st ++ run r2 st
  | Star greedy r1 => star (run r1) greedy
  | Plus greedy r1 => fun st => flat_map (star (run r1) greedy) (run r1 st)
  | Opt greedy r1 =>
      fun st => if greedy then run r1 st ++ [st] else st :: run r1 st
  | Group n r1 =>
      fun st =>
        map (fun st' =>
               {| pos := pos st'; rest := rest st';
                  caps := (n, consumed st st') :: caps st' |})
            (run r1 st)
  end.

(** The ways [p] can match [s] from index [i], where [s] is the subject
    from [i] on. *)
Definition match_from (p : Pattern) (i : nat) (s : string) : list mstate :=
  run (prog p) {| pos := i; rest := s; caps := [] |}.

(** [Pattern.match(string)]: a match object when the pattern matches at
    the start of the string, [None] otherwise. *)
Definition match_ (p : Pattern) (s : string) : option mstate :=
  hd_error (match_from p 0 s).

(** [Pattern.search(string)]: the first index, from the left, at which the
    pattern matches. *)
Fixpoint search_from (p : Pattern) (i : nat) (s : string) : option (nat * mstate) :=
  match hd_error (match_from p i s) with
  | Some st => Some (i, st)
  | None =>
      match s with
      | EmptyString => None
      | String _ s' => search_from p (S i) s'
      end
  end.

Definition search (p : Pattern) (s : string) : option (nat * mstate) :=
  search_from p 0 s.

(** *** Replacement templates

    [re.sub] reads its replacement as a template: a backslash followed by
    a digit refers to a group of the match, a few letters after a
    backslash denote control characters, any other ASCII letter after a
    backslash is an error, and a backslash before any other character
    stays in the text.  Octal escapes, references with more than one
    digit and the [\g<...>] form are outside the embedded fragment. *)

Inductive titem : Type :=
| TChar (c : ascii)
| TGroup (n : nat).

Definition template_escape (e : ascii) : option ascii :=
  if Ascii.eqb e "a" then Some (ascii_of_nat 7)
  else if Ascii.eqb e "b" then Some (ascii_of_nat 8)
  else if Ascii.eqb e "f" then Some (ascii_of_nat 12)
  else if Ascii.eqb e "n" then Some (ascii_of_nat 10)
  else if Ascii.eqb e "r" then Some (ascii_of_nat 13)
  else if Ascii.eqb e "t" then Some (ascii_of_nat 9)
  else if Ascii.eqb e "v" then Some (ascii_of_nat 11)
  else if Ascii.eqb e backslash then Some backslash
  else None.

Definition starts_with_digit (s : string) : bool :=
  match s with
  | String d _ => is_digit d
  | EmptyString => false
  end.

Fixpoint parse_template (ngroups : nat) (repl : string) : result (list titem) :=
  match repl with
  | EmptyString => Ok []
  | String c s1 =>
      if Ascii.eqb c backslash then
        match s1 with
        | EmptyString => Raise re_error         (* bad escape (end of pattern) *)
        | String e s2 =>
            if is_digit e then
              if Ascii.eqb e "0" || starts_with_digit s2 then Raise Unsupported
              else if Nat.ltb ngroups (digit_value e) then
                Raise re_error                  (* invalid group reference *)
              else
                (t <- parse_template ngroups s2 ;;
                 Ok (TGroup (digit_value e) :: t))%result
            else
              match template_escape e with
              | Some c' =>
                  (t <- parse_template ngroups s2 ;; Ok (TChar c' :: t))%result
              | None =>
                  if Ascii.eqb e "g" then Raise Unsupported
                  else if is_ascii_letter e then Raise re_error  (* bad escape *)
                  else
                    (t <- parse_template ngroups s2 ;;
                     Ok (TChar backslash :: TChar e :: t))%result
              end
        end
      else
        (t <- parse_template ngroups s1 ;; Ok (TChar c :: t))%result
  end.

(** The text of group [n] in a match; a group that took no part in the
    match expands to the empty string. *)
Definition group_text (st : mstate) (n : nat) : string :=
  match find (fun kv => Nat.eqb (fst kv) n) (caps st) with
  | Some kv => snd kv
  | None => ""
  end.

Fixpoint expand (t : list titem) (st : mstate) : string :=
  match t with
  | [] => ""
  | TChar c :: t' => String c (expand t' st)
  | TGroup n :: t' => (group_text st n ++ expand t' st)%string
  end.

(** *** Substitution

    [re.sub] replaces the leftmost non-overlapping matches.  After an
    empty match the library looks again at the same index for a match
    that is not empty; failing that it copies one character and goes
    on. *)

Definition first_match (p : Pattern) (i : nat) (s : string)
    (must_advance : bool) : option mstate :=
  find (fun st => negb must_advance || Nat.ltb i (pos st)) (match_from p i s).

(** [sub_loop p t i skip s]: [s] is the subject from index [i] on, and its
    first [skip] characters belong to the match just replaced. *)
Fixpoint sub_loop (p : Pattern) (t : list titem) (i skip : nat) (s : string)
    {struct s} : string :=
  let copy_one :=
    match s with
    | EmptyString => ""
    | String c s' => String c (sub_loop p t (S i) 0 s')
    end in
  let skip_to (e : nat) :=
    match s with
    | EmptyString => ""
    | String _ s' => sub_loop p t (S i) (e - S i) s'
    end in
  match skip with
  | S k => skip_to (S i + k)
  | 0 =>
      match first_match p i s false with
      | None => copy_one
      | Some st =>
          (expand t st ++
           if Nat.ltb i (pos st) then skip_to (pos st)
           else
             match first_match p i s true with
             | Some st2 => expand t st2 ++ skip_to (pos st2)
             | None => copy_one
             end)%string
      end
  end.

(** [re.sub(pattern, repl, string)] for a compiled [pattern] and a string
    [repl].  The template is read before the subject is searched. *)
Definition sub (p : Pattern) (repl : string) (s : string) : result string :=
  (t <- parse_template (groups p) repl ;;
   Ok (sub_loop p t 0 0 s))%result.

(** *** Compiling patterns

    The parser reads the pattern text from left to right.  [cur] is the
    innermost group being read and [opened] the groups around it, each with
    its number.  Each atom carries what the next quantifier may do with
    it. *)

Inductive akind : Type :=
| Plain
| Anchor
| Repeat (suffixable : bool).

Record frame : Type :=
  { alts : list regex;             (* finished alternatives, newest first *)
    atoms : list (regex * akind) } (* the current alternative, newest first *).

Record pstate : Type :=
  { ngroups : nat;
    cur : frame;
    opened : list (nat * frame) }.

Definition empty_frame : frame := {| alts := []; atoms := [] |}.
Definition init : pstate :=
  {| ngroups := 0; cur := empty_frame; opened := [] |}.

Definition seq_of (l : list (regex * akind)) : regex :=
  match l with
  | [] => Eps
  | a :: more => fold_left (fun acc b => Cat (fst b) acc) more (fst a)
  end.

Definition alt_of (f : frame) : regex :=
  fold_left (fun acc b => Alt b acc) (alts f) (seq_of (atoms f)).

Definition with_atoms (ps : pstate) (l : list (regex * akind)) : pstate :=
  {| ngroups := ngroups ps;
     cur := {| alts := alts (cur ps); atoms := l |};
     opened := opened ps |}.

Definition push (a : regex) (k : akind) (ps : pstate) : pstate :=
  with_atoms ps ((a, k) :: atoms (cur ps)).

Definition quantify (mk : bool -> regex -> regex) (ps : pstate) : result pstate :=
  match atoms (cur ps) with
  | [] => Raise re_error                  (* nothing to repeat *)
  | (_, Anchor) :: _ => Raise re_error    (* nothing to repeat *)
  | (_, Repeat _) :: _ => Raise re_error  (* multiple repeat *)
  | (a, Plain) :: more => Ok (with_atoms ps ((mk true a, Repeat true) :: more))
  end.

Definition make_lazy (r : regex) : regex :=
  match r with
  | Star _ r1 => Star false r1
  | Plus _ r1 => Plus false r1
  | Opt _ r1 => Opt false r1
  | _ => r
  end.

Definition open_group (ps : pstate) : pstate :=
  {| ngroups := S (ngroups ps);
     cur := empty_frame;
     opened := (S (ngroups ps), cur ps) :: opened ps |}.

Definition close_group (ps : pstate) : result pstate :=
  match opened ps with
  | [] => Raise re_error                  (* unbalanced parenthesis *)
  | (n, parent) :: more =>
      Ok {| ngroups := ngroups ps;
            cur := {| alts := alts parent;
                      atoms := (Group n (alt_of (cur ps)), Plain) :: atoms parent |};
            opened := more |}
  end.

Definition branch (ps : pstate) : pstate :=
  {| ngroups := ngroups ps;
     cur := {| alts := seq_of (atoms (cur ps)) :: alts (cur ps); atoms := [] |};
     opened := opened ps |}.

(** One character that is neither a backslash nor an opening
    parenthesis. *)
Definition step (c : ascii) (ps : pstate) : result pstate :=
  if Ascii.eqb c "*" then quantify Star ps
  else if Ascii.eqb c "+" then
    match atoms (cur ps) with
    | (_, Repeat true) :: _ => Raise Unsupported   (* possessive quantifier *)
    | _ => quantify Plus ps
    end
  else if Ascii.eqb c "?" then
    match atoms (cur ps) with
    | (a, Repeat true) :: more =>
        Ok (with_atoms ps ((make_lazy a, Repeat false) :: more))
    | _ => quantify Opt ps
    end
  else if Ascii.eqb c ")" then close_group ps
  else if Ascii.eqb c "|" then Ok (branch ps)
  else if Ascii.eqb c "." then Ok (push Dot Plain ps)
  else if Ascii.eqb c "^" then Ok (push Bol Anchor ps)
  else if Ascii.eqb c "$" then Ok (push Eol Anchor ps)
  else if Ascii.eqb c "[" || Ascii.eqb c "{" then Raise Unsupported
  else Ok (push (Lit c) Plain ps).

(** The character after a backslash. *)
Definition escape (e : ascii) : result regex :=
  if Ascii.eqb e "d" then Ok (Cls Digit true)
  else if Ascii.eqb e "D" then Ok (Cls Digit false)
  else if Ascii.eqb e "w" then Ok (Cls Word true)
  else if Ascii.eqb e "W" then Ok (Cls Word false)
  else if Ascii.eqb e "s" then Ok (Cls Space true)
  else if Ascii.eqb e "S" then Ok (Cls Space false)
  else if Ascii.eqb e "a" then Ok (Lit (ascii_of_nat 7))
  else if Ascii.eqb e "f" then Ok (Lit (ascii_of_nat 12))
  else if Ascii.eqb e "n" then Ok (Lit (ascii_of_nat 10))
  else if Ascii.eqb e "r" then Ok (Lit (ascii_of_nat 13))
  else if Ascii.eqb e "t" then Ok (Lit (ascii_of_nat 9))
  else if Ascii.eqb e "v" then Ok (Lit (ascii_of_nat 11))
  else if is_digit e then Raise Unsupported        (* octal, back-reference *)
  else if Ascii.eqb e "A" || Ascii.eqb e "Z" || Ascii.eqb e "b"
          || Ascii.eqb e "B" || Ascii.eqb e "x" || Ascii.eqb e "u"
          || Ascii.eqb e "U" || Ascii.eqb e "N" then Raise Unsupported
  else if is_ascii_letter e then Raise re_error    (* bad escape *)
  else Ok (Lit e).

Fixpoint parse (s : string) (ps : pstate) : result Pattern :=
  match s with
  | EmptyString =>
      match opened ps with
      | [] => Ok {| prog := alt_of (cur ps); groups := ngroups ps |}
      | _ :: _ => Raise re_error          (* missing ), unterminated subpattern *)
      end
  | String c s1 =>
      if Ascii.eqb c backslash then
        match s1 with
        | EmptyString => Raise re_error   (* bad escape (end of pattern) *)
        | String e s2 =>
            (a <- escape e ;; parse s2 (push a Plain ps))%result
        end
      else if Ascii.eqb c "(" then
        if match s1 with String q _ => Ascii.eqb q "?" | EmptyString => false end
        then Raise Unsupported            (* extension notation *)
        else parse s1 (open_group ps)
      else
        (ps' <- step c ps ;; parse s1 ps')%result
  end.

(** [re.compile(pattern)] for a pattern string. *)
Definition compile (pattern : string) : result Pattern := parse pattern init.

End re.

(** ** Python values *)

(** The values the program handles: what [yaml.safe_load] can return,
    and compiled patterns.  A [dict] keeps its items in insertion order.

    Left out of the embedding: YAML floats; mappings with keys that are
    not strings (the program only ever looks up string keys); the
    [bytes] that [safe_load] makes of a [!!binary] scalar; and sharing:
    a value is a tree, whereas [safe_load] returns one object for an
    anchor and all its aliases, which the loader would then change in
    every place at once.  The statements about loaded documents are
    about documents without [!!binary] scalars and without aliases. *)
Inductive pyval : Type :=
| PNone
| PBool (b : bool)
| PInt (z : Z)
| PStr (s : string)
| PList (l : list pyval)
| PDict (d : list (string * pyval))
| PPattern (p : re.Pattern).

Module Py.

Fixpoint dict_get (d : list (string * pyval)) (k : string) : option pyval :=
  match d with
  | [] => None
  | (k', v) :: d' => if String.eqb k' k then Some v else dict_get d' k
  end.

Fixpoint dict_set (d : list (string * pyval)) (k : string) (v : pyval)
    : list (string * pyval) :=
  match d with
  | [] => [(k, v)]
  | (k', v') :: d' =>
      if String.eqb k' k then (k', v) :: d' else (k', v') :: dict_set d' k v
  end.

(** [obj[key]] for a string [key]. *)
Definition getitem (obj : pyval) (key : string) : result pyval :=
  match obj with
  | PDict d =>
      match dict_get d key with
      | Some v => Ok v
      | None => Raise (KeyError key)
      end
  | _ => Raise TypeError
  end.

(** [obj[key] = v] for a string [key]; the result is [obj] after the
    assignment. *)
Definition setitem (obj : pyval) (key : string) (v : pyval) : result pyval :=
  match obj with
  | PDict d => Ok (PDict (dict_set d key v))
  | _ => Raise TypeError
  end.

Fixpoint chars (s : string) : list pyval :=
  match s with
  | EmptyString => []
  | String c s' => PStr (String c "") :: chars s'
  end.

(** The items a [for] loop over [obj] visits. *)
Definition iter (obj : pyval) : result (list pyval) :=
  match obj with
  | PList l => Ok l
  | PDict d => Ok (map (fun kv => PStr (fst kv)) d)
  | PStr s => Ok (chars s)
  | _ => Raise TypeError
  end.

Definition truthy (obj : pyval) : bool :=
  match obj with
  | PNone => false
  | PBool b => b
  | PInt z => negb (Z.eqb z 0)
  | PStr s => negb (String.eqb s "")
  | PList l => match l with [] => false | _ => true end
  | PDict d => match d with [] => false | _ => true end
  | PPattern _ => true
  end.

(** An optional command-line value as click passes it: [None] or a
    string. *)
Definition of_option (o : option string) : pyval :=
  match o with
  | Some s => PStr s
  | None => PNone
  end.

(** [str.rstrip()]: the string without its trailing white space. *)
Fixpoint rstrip (s : string) : string :=
  match s with
  | EmptyString => ""
  | String c s' =>
      match rstrip s' with
      | EmptyString => if is_space c then "" else String c ""
      | t => String c t
      end
  end.

(** [re.compile(obj)]. *)
Definition re_compile (obj : pyval) : result re.Pattern :=
  match obj with
  | PStr s => re.compile s
  | PPattern p => Ok p
  | _ => Raise TypeError
  end.

(** [re.sub(pattern, repl, string)] for a compiled [pattern]. *)
Definition re_sub (p : re.Pattern) (repl : pyval) (s : string) : result string :=
  match repl with
  | PStr r => re.sub p r s
  | _ => Raise TypeError
  end.

End Py.

(** ** pathlib *)

Module pathlib.

Definition slash : ascii := "/"%char.

(** The pieces of [s] between slashes; [acc] is the piece being read. *)
Fixpoint split (s : string) (acc : string) : list string :=
  match s with
  | EmptyString => [acc]
  | String c s' =>
      if Ascii.eqb c slash then acc :: split s' ""
      else split s' (acc ++ String c "")%string
  end.

Fixpoint leading_slashes (s : string) : nat :=
  match s with
  | String c s' => if Ascii.eqb c slash then S (leading_slashes s') else 0
  | EmptyString => 0
  end.

Definition root (s : string) : string :=
  match leading_slashes s with
  | 0 => ""
  | 2 => "//"
  | _ => "/"
  end.

Definition parts (s : string) : list string :=
  filter (fun c => negb (String.eqb c "" || String.eqb c ".")) (split s "").

(** [str(Path(s))] on a POSIX system: empty and [.] components are
    dropped, and exactly two leading slashes are kept. *)
Definition Path (s : string) : string :=
  match root s, parts s with
  | EmptyString, [] => "."
  | r, ps => (r ++ String.concat "/" ps)%string
  end.

End pathlib.

(** ** click *)

Module click.

Definition esc : ascii := ascii_of_nat 27.

Definition is_param (c : ascii) : bool :=
  is_digit c || Ascii.eqb c ";" || Ascii.eqb c "?".

(** The length of the text [[;?0-9]*[a-zA-Z]] at the start of [s], when
    [s] starts with such a text. *)
Fixpoint params_letter (s : string) : option nat :=
  match s with
  | EmptyString => None
  | String c s' =>
      if is_param c then option_map S (params_letter s')
      else if is_ascii_letter c then Some 1
      else None
  end.

(** The length of the rest of an ANSI sequence after its escape
    character. *)
Definition sequence_length (s : string) : option nat :=
  match s with
  | String c s' =>
      if Ascii.eqb c "[" then option_map S (params_letter s') else None
  | EmptyString => None
  end.

(** [s] without its first [skip] characters and without the ANSI
    sequences after them. *)
Fixpoint strip_loop (skip : nat) (s : string) : string :=
  match s with
  | EmptyString => ""
  | String c s' =>
      match skip with
      | S k => strip_loop k s'
      | 0 =>
          if Ascii.eqb c esc then
            match sequence_length s' with
            | Some n => strip_loop n s'
            | None => String c (strip_loop 0 s')
            end
          else String c (strip_loop 0 s')
      end
  end.

(** [strip_ansi(value)]: every match of [\033\[[;?0-9]*[a-zA-Z]]
    removed. *)
Definition strip_ansi (s : string) : string := strip_loop 0 s.

(** What [click.echo(message)] writes on a POSIX machine, with the
    default colour setting: the message, nothing for [None], followed by
    a newline; when the output is not a terminal, the ANSI sequences are
    removed from it. *)
Definition echoed (isatty : bool) (message : option string) : string :=
  let out := (match message with Some s => s | None => "" end ++ nl)%string in
  if isatty then out else strip_ansi out.

End click.

(** ** The process and its environment *)

(** What a path names.  [Inaccessible] is a path on which the system
    calls fail with an error that pathlib does not take for absence (a
    name that is too long, a directory that may not be searched): [stat]
    and [open] raise [OSError] there.  Where a component of the path is
    a file, nothing is there for [stat], and the [NotADirectoryError] of
    [open] is not told apart from [FileNotFoundError].  The content of a
    file is text that can be decoded; a file that cannot (a
    [UnicodeDecodeError] while reading) is left out. *)
Inductive fnode : Type :=
| RegularFile (readable : bool) (content : string)
| Directory
| Inaccessible.

(** What the program reads and does not change: the environment
    variables, what [os.path.expanduser] makes of [~], the file system
    of a POSIX machine, the lines of standard input (each with its line
    terminator), whether standard output is a terminal, and the two
    library functions whose result depends on text this development does
    not interpret: PyYAML's [safe_load] and click's rendering of the
    help text. *)
Record World : Type :=
  { environ : string -> option string;
    home : string;
    fs : string -> option fnode;
    stdin : list string;
    stdout_isatty : bool;
    yaml_safe_load : string -> result pyval;
    get_help : string }.

(** What the program changes: the text written to standard output and
    the paths it called [open] on, oldest first. *)
Record Proc : Type :=
  { stdout : string;
    open_calls : list string }.

Definition start : Proc := {| stdout := ""; open_calls := [] |}.

Definition IO (A : Type) : Type := Proc -> Proc * result A.

Definition ret {A : Type} (a : A) : IO A := fun p => (p, Ok a).
Definition raise {A : Type} (e : exn) : IO A := fun p => (p, Raise e).
Definition lift {A : Type} (r : result A) : IO A := fun p => (p, r).

Definition bind {A B : Type} (c : IO A) (k : A -> IO B) : IO B :=
  fun p =>
    match c p with
    | (p', Ok a) => k a p'
    | (p', Raise e) => (p', Raise e)
    end.

Declare Scope io_scope.
Delimit Scope io_scope with io.
Notation "x <- c ;; k" := (bind c (fun x => k))
  (at level 61, c at next level, right associativity) : io_scope.

(** A [for] loop whose body has effects. *)
Fixpoint for_each {A : Type} (l : list A) (body : A -> IO unit) : IO unit :=
  match l with
  | [] => ret tt
  | a :: l' => (_ <- body a ;; for_each l' body)%io
  end.

(** [click.echo(message)] writes what [click.echoed] gives. *)
Definition click_echo (w : World) (message : option string) : IO unit :=
  fun p =>
    ({| stdout := (stdout p ++ click.echoed (stdout_isatty w) message)%string;
        open_calls := open_calls p |}, Ok tt).

(** [ctx.exit()]. *)
Definition ctx_exit {A : Type} : IO A := raise (Exit 0).

(** What [open(path, 'r')] and reading the whole file give. *)
Definition read_file (w : World) (path : string) : result string :=
  match fs w path with
  | None => Raise FileNotFoundError
  | Some Directory => Raise IsADirectoryError
  | Some Inaccessible => Raise OSError
  | Some (RegularFile false _) => Raise PermissionError
  | Some (RegularFile true text) => Ok text
  end.

(** The process after a call of [open] on [path]. *)
Definition logged (path : string) (p : Proc) : Proc :=
  {| stdout := stdout p; open_calls := open_calls p ++ [path] |}.

(** [open(path, 'r')] followed by reading the whole file. *)
Definition open_read (w : World) (path : string) : IO string :=
  fun p => (logged path p, read_file w path).

(** [Path(path).is_file()]: pathlib answers [False] where nothing is
    there, and lets the other errors of [stat] through. *)
Definition is_file (w : World) (path : string) : result bool :=
  match fs w path with
  | Some (RegularFile _ _) => Ok true
  | Some Inaccessible => Raise OSError
  | _ => Ok false
  end.

(** [str(Path.home())]: pathlib (of Python 3.10 and later) raises
    [RuntimeError] when the expansion of [~] still starts with [~], as
    it does when the home directory is not known. *)
Definition Path_home (w : World) : result string :=
  match home w with
  | String c _ =>
      if Ascii.eqb c "~" then Raise RuntimeError else Ok (pathlib.Path (home w))
  | EmptyString => Ok (pathlib.Path (home w))
  end.

(** ** The program *)

Definition _print_help (w : World) (value : bool) : IO unit :=
  if negb value then ret tt
  else (_ <- click_echo w (Some (get_help w)) ;; ctx_exit)%io.

Definition _generate_cli_adhoc_rules (match_pattern replace_pattern : option string)
    : result pyval :=
  if Py.truthy (Py.of_option match_pattern)
     && Py.truthy (Py.of_option replace_pattern) then
    match match_pattern, replace_pattern with
    | Some m, Some r =>
        (p <- re.compile m ;;
         Ok (PDict [("substitutions",
                     PList [PDict [("match", PPattern p);
                                   ("replace", PStr r)]])]))%result
    | _, _ => Ok PNone
    end
  else Ok PNone.

Definition globalfile : string := "/usr/local/etc/sarlac.yaml".

(** The candidate in the home directory [h]. *)
Definition home_candidate (h : string) : string :=
  pathlib.Path (h ++ "/.sarlac.yaml")%string.

(** [Path(str(Path.home()) + "/.sarlac.yaml")]. *)
Definition homefile (w : World) : result string :=
  (h <- Path_home w ;; Ok (home_candidate h))%result.

Definition _get_config_filename (w : World) : result string :=
  let envfile := environ w "SARLAC_CONFIG" in
  (hf <- homefile w ;;
   let configfile := globalfile in
   found <- is_file w hf ;;
   let configfile := if found then hf else configfile in
   let configfile :=
     match envfile with
     | Some e => if Py.truthy (PStr e) then e else configfile
     | None => configfile
     end in
   Ok configfile)%result.

(** The loop of [_run_subs] over the rules. *)
Fixpoint run_rules (rules : list pyval) (instr : string) : result (option string) :=
  match rules with
  | [] => Ok None
  | rule :: rules' =>
      (m <- Py.getitem rule "match" ;;
       match m with
       | PPattern p =>
           match re.match_ p instr with
           | Some _ =>
               (repl <- Py.getitem rule "replace" ;;
                out <- Py.re_sub p repl instr ;;
                Ok (Some out))
           | None => run_rules rules' instr
           end
       | _ => Raise AttributeError
       end)%result
  end.

Definition _run_subs (sub_rules : pyval) (instr : string) : result (option string) :=
  (subs <- Py.getitem sub_rules "substitutions" ;;
   rules <- Py.iter subs ;;
   run_rules rules instr)%result.

Definition last_arg (cli_args : list string) : result string :=
  match rev cli_args with
  | a :: _ => Ok a
  | [] => Raise IndexError
  end.

Definition _process_input (w : World) (sub_rules : pyval) (cli_args : list string)
    : IO unit :=
  (a <- lift (last_arg cli_args) ;;
   if String.eqb a "-" then
     for_each (stdin w)
       (fun instr =>
          out <- lift (_run_subs sub_rules (Py.rstrip instr)) ;;
          click_echo w out)
   else
     for_each cli_args
       (fun instr =>
          out <- lift (_run_subs sub_rules instr) ;;
          click_echo w out))%io.

(** The body of the loop of [_parse_config]. *)
Definition compile_rule (rule : pyval) : result pyval :=
  (m <- Py.getitem rule "match" ;;
   p <- Py.re_compile m ;;
   Py.setitem rule "match" (PPattern p))%result.

Definition _parse_config (w : World) (configfile : string) : IO pyval :=
  (text <- open_read w configfile ;;
   config <- lift (yaml_safe_load w text) ;;
   lift (subs <- Py.getitem config "substitutions" ;;
         rules <- Py.iter subs ;;
         rules' <- mapM compile_rule rules ;;
         match subs with
         | PList _ => Py.setitem config "substitutions" (PList rules')
         | _ => Ok config
         end)%result)%io.

Definition main (w : World) (match_pattern replace_pattern : option string)
    (cli_args : list string) : IO unit :=
  (_ <- (if negb (Py.truthy (Py.of_option match_pattern))
            && negb (Py.truthy (Py.of_option replace_pattern))
            && match cli_args with [] => true | _ => false end
         then _print_help w true
         else ret tt) ;;
   sub_rules <- lift (_generate_cli_adhoc_rules match_pattern replace_pattern) ;;
   config <- lift (_get_config_filename w) ;;
   sub_rules <- (if negb (Py.truthy sub_rules) then _parse_config w config
                 else ret sub_rules) ;;
   _ <- _process_input w sub_rules cli_args ;;
   ctx_exit)%io.

(** ** Rule sets used in the statements and examples *)

(** A rule given by its pattern object and its replacement, and the rule
    set holding a list of rules, as [_generate_cli_adhoc_rules] builds
    them. *)
Definition rule (p : re.Pattern) (repl : pyval) : pyval :=
  PDict [("match", PPattern p); ("replace", repl)].

Definition ruleset (rules : list pyval) : pyval :=
  PDict [("substitutions", PList rules)].

(** The pattern object of a pattern text that compiles. *)
Definition pattern_of (text : string) : re.Pattern :=
  match re.compile text with
  | Ok p => p
  | Raise _ => {| re.prog := re.Eps; re.groups := 0 |}
  end.

(** The rule's pattern is compiled and does not match at the start of
    [s]. *)
Definition no_match (s : string) (r : pyval) : Prop :=
  exists q, Py.getitem r "match" = Ok (PPattern q) /\ re.match_ q s = None.

(** The rule's pattern is compiled and its replacement is a string that
    [re.sub] accepts as a template for that pattern. *)
Definition valid_rule (r : pyval) : Prop :=
  exists p repl t,
    Py.getitem r "match" = Ok (PPattern p) /\
    Py.getitem r "replace" = Ok (PStr repl) /\
    re.parse_template (re.groups p) repl = Ok t.

(** Every occurrence of the character [c] in [s] replaced by [b]. *)
Fixpoint replace_all (c : ascii) (b : string) (s : string) : string :=
  match s with
  | EmptyString => ""
  | String x s' =>
      if Ascii.eqb c x then (b ++ replace_all c b s')%string
      else String x (replace_all c b s')
  end.

Fixpoint has_backslash (s : string) : bool :=
  match s with
  | EmptyString => false
  | String c s' => Ascii.eqb c backslash || has_backslash s'
  end.

(** [n] empty lines. *)
Fixpoint empty_lines (n : nat) : string :=
  match n with
  | 0 => ""
  | S n' => (nl ++ empty_lines n')%string
  end.

(** The error kinds of the specification, and the kind each Python
    exception of the loader falls under. *)
Inductive ErrorKind : Type :=
| ConfigNotFoundError
| ConfigParseError
| InvalidPatternError.

Definition error_kind (e : exn) : option ErrorKind :=
  match e with
  | FileNotFoundError | PermissionError | IsADirectoryError | OSError =>
      Some ConfigNotFoundError
  | YAMLError | KeyError _ | TypeError => Some ConfigParseError
  | re_error => Some InvalidPatternError
  | _ => None
  end.

(** [st'] is reached from [st] by reading a piece [u] of the subject. *)
Definition extends (st st' : re.mstate) : Prop :=
  exists u,
    re.rest st = (u ++ re.rest st')%string /\
    re.pos st' = re.pos st + String.length u.

(** The pattern that is the single literal character [c]. *)
Definition literal (c : ascii) : re.Pattern :=
  {| re.prog := re.Lit c; re.groups := 0 |}.

(** The strings that [_process_input] hands to [_run_subs]: the lines of
    standard input without their trailing white space when the last
    argument is a dash, the arguments otherwise. *)
Definition input_strings (w : World) (cli_args : list string) : list string :=
  match last_arg cli_args with
  | Ok a => if String.eqb a "-" then map Py.rstrip (stdin w) else cli_args
  | Raise _ => []
  end.

(** *** Example rules *)

Definition rule_x : pyval := rule (pattern_of "x") (PStr "1").
Definition rule_a : pyval := rule (pattern_of "a") (PStr "b").
Definition rule_a_plus : pyval := rule (pattern_of "a+") (PStr "c").
Definition rule_foo : pyval := rule (pattern_of "foo") (PStr "bar").

(** *** Example worlds *)

Definition usage : string := "Usage: sarlac [OPTIONS] [CLI_ARGS]...".

(** A machine without configuration files. *)
Definition bare : World :=
  {| environ := fun _ => None;
     home := "/home/u";
     fs := fun _ => None;
     stdin := [];
     stdout_isatty := false;
     yaml_safe_load := fun _ => Raise YAMLError;
     get_help := usage |}.

(** The document
    [substitutions: [{match: "a", replace: "b"}]]. *)
Definition good_doc : pyval :=
  PDict [("substitutions",
          PList [PDict [("match", PStr "a"); ("replace", PStr "b")]])].

(** A machine with a well-formed configuration file at the override
    path, in the home directory and at the system-wide path. *)
Definition configured : World :=
  {| environ := fun k =>
       if String.eqb k "SARLAC_CONFIG" then Some "/tmp/rules.yaml" else None;
     home := "/home/u";
     fs := fun path =>
       if String.eqb path "/tmp/rules.yaml"
          || String.eqb path "/home/u/.sarlac.yaml"
          || String.eqb path globalfile
       then Some (RegularFile true "substitutions: [{match: a, replace: b}]")
       else None;
     stdin := [];
     stdout_isatty := false;
     yaml_safe_load := fun _ => Ok good_doc;
     get_help := usage |}.

(** The same machine without the override. *)
Definition configured_home : World :=
  {| environ := fun _ => None;
     home := home configured;
     fs := fs configured;
     stdin := [];
     stdout_isatty := false;
     yaml_safe_load := yaml_safe_load configured;
     get_help := usage |}.

(** The document [substitutions: [{match: "a"}]], whose only entry has no
    [replace] key, in the system-wide file. *)
Definition no_replace_doc : pyval :=
  PDict [("substitutions", PList [PDict [("match", PStr "a")]])].

Definition no_replace_world : World :=
  {| environ := fun _ => None;
     home := "/home/u";
     fs := fun path =>
       if String.eqb path globalfile
       then Some (RegularFile true "substitutions: [{match: a}]")
       else None;
     stdin := [];
     stdout_isatty := false;
     yaml_safe_load := fun _ => Ok no_replace_doc;
     get_help := usage |}.

(** ** Further notions used in the statements *)

(** What [click.echo] writes for a list of results of [_run_subs]. *)
Fixpoint lines_of (isatty : bool) (outs : list (option string)) : string :=
  match outs with
  | [] => ""
  | o :: outs' => (click.echoed isatty o ++ lines_of isatty outs')%string
  end.

(** The body of the two loops of [_process_input], for a string already
    stripped. *)
Definition echo_result (w : World) (sub_rules : pyval) (instr : string)
    : IO unit :=
  (out <- lift (_run_subs sub_rules instr) ;; click_echo w out)%io.

(** The replacement of every occurrence, in the words of the
    documentation of [re.sub]: the result is the subject in which the
    leftmost non-overlapping occurrences of the pattern are replaced.
    [replaces_all p t i advance s out]: [s] is the subject from index [i]
    on, and [out] is what becomes of it.  A character is copied only at
    an index where the pattern has no match; at an index where it has
    one, the expansion of the template is written and the reading goes on
    where the match ends.  [advance] holds right after an empty match,
    when the next match may not be empty at the same index. *)
Inductive replaces_all (p : re.Pattern) (t : list re.titem)
    : nat -> bool -> string -> string -> Prop :=
| replaces_end (i : nat) (advance : bool) :
    re.first_match p i "" advance = None ->
    replaces_all p t i advance "" ""
| replaces_copy (i : nat) (advance : bool) (c : ascii) (s out : string) :
    re.first_match p i (String c s) advance = None ->
    replaces_all p t (S i) false s out ->
    replaces_all p t i advance (String c s) (String c out)
| replaces_match (i : nat) (advance : bool) (s : string) (st : re.mstate)
    (out : string) :
    re.first_match p i s advance = Some st ->
    replaces_all p t (re.pos st) (Nat.eqb (re.pos st) i) (re.rest st) out ->
    replaces_all p t i advance s (re.expand t st ++ out)%string.

Fixpoint all_space (s : string) : bool :=
  match s with
  | EmptyString => true
  | String c s' => is_space c && all_space s'
  end.


Definition is_exit (e : exn) : bool :=
  match e with
  | Exit _ => true
  | _ => false
  end.

(** A call that raises does not raise click's [Exit]. *)
Definition no_exit {A : Type} (c : result A) : Prop :=
  forall e, c = Raise e -> is_exit e = false.

Definition io_no_exit {A : Type} (c : IO A) : Prop :=
  forall q, no_exit (snd (c q)).

(** The computation ends by raising, and if it raises [Exit] the code
    is 0. *)
Definition ends_with_exit0 {A : Type} (c : IO A) : Prop :=
  forall q, exists e, snd (c q) = Raise e /\ (is_exit e = true -> e = Exit 0).

(** A document with two entries and a further top-level key. *)
Definition two_rule_entries : list pyval :=
  [PDict [("match", PStr "a+"); ("replace", PStr "b"); ("note", PStr "first")];
   PDict [("replace", PInt 5); ("match", PStr "x")]].

Definition two_rule_doc : pyval :=
  PDict [("version", PInt 1); ("substitutions", PList two_rule_entries)].

(** The rule set the loader makes of it. *)
Definition two_rule_loaded : pyval :=
  PDict [("version", PInt 1);
         ("substitutions",
          PList [PDict [("match", PPattern (pattern_of "a+"));
                        ("replace", PStr "b"); ("note", PStr "first")];
                 PDict [("replace", PInt 5);
                        ("match", PPattern (pattern_of "x"))]])].

Definition two_rule_world : World :=
  {| environ := fun _ => None;
     home := "/home/u";
     fs := fun path =>
       if String.eqb path globalfile then Some (RegularFile true "...") else None;
     stdin := [];
     stdout_isatty := false;
     yaml_safe_load := fun _ => Ok two_rule_doc;
     get_help := usage |}.

(** A document whose [substitutions] is an empty list. *)
Definition empty_doc : pyval :=
  PDict [("substitutions", PList []); ("comment", PStr "none yet")].

Definition empty_doc_world : World :=
  {| environ := fun _ => None;
     home := "/home/u";
     fs := fun path =>
       if String.eqb path globalfile then Some (RegularFile true "...") else None;
     stdin := [];
     stdout_isatty := false;
     yaml_safe_load := fun _ => Ok empty_doc;
     get_help := usage |}.

(** A machine on which the home directory is not known, with the
    override set and the system-wide file present. *)
Definition homeless : World :=
  {| environ := fun k =>
       if String.eqb k "SARLAC_CONFIG" then Some "/tmp/rules.yaml" else None;
     home := "~";
     fs := fs configured;
     stdin := [];
     stdout_isatty := false;
     yaml_safe_load := yaml_safe_load configured;
     get_help := usage |}.

(** A machine like [bare] whose standard output is a terminal. *)
Definition terminal : World :=
  {| environ := fun _ => None;
     home := "/home/u";
     fs := fun _ => None;
     stdin := [];
     stdout_isatty := true;
     yaml_safe_load := fun _ => Raise YAMLError;
     get_help := usage |}.

(** The escape sequence that sets the colour red, and a rule that puts
    it in front of an [a]. *)
Definition red : string := String click.esc "[31m".
Definition rule_red : pyval := rule (pattern_of "a") (PStr (red ++ "a")).

(** A world like [bare] whose standard input holds two lines. *)
Definition piped : World :=
  {| environ := fun _ => None;
     home := "/home/u";
     fs := fun _ => None;
     stdin := [("aaa" ++ nl)%string; ("xyz  " ++ nl)%string];
     stdout_isatty := false;
     yaml_safe_load := fun _ => Raise YAMLError;
     get_help := usage |}.

(** The same lines without their trailing white space. *)
Definition piped_stripped : World :=
  {| environ := fun _ => None;
     home := "/home/u";
     fs := fun _ => None;
     stdin := ["aaa"; "xyz"];
     stdout_isatty := false;
     yaml_safe_load := fun _ => Raise YAMLError;
     get_help := usage |}.

(** A rule whose replacement refers to a group the pattern lacks, and a
    rule without replacement. *)
Definition rule_bad_template : pyval := rule (pattern_of "b") (PStr "\1").
Definition rule_no_replace : pyval := PDict [("match", PPattern (pattern_of "b"))].

(** * Properties *)

(** ** The rule loop *)

Lemma getitem_ruleset (rules : list pyval) :
  Py.getitem (ruleset rules) "substitutions" = Ok (PList rules).
Proof. reflexivity. Qed.

Lemma run_subs_rules (R : pyval) (rules : list pyval) (s : string) :
  Py.getitem R "substitutions" = Ok (PList rules) ->
  _run_subs R s = run_rules rules s.
Proof.
  intros H. unfold _run_subs. rewrite H. reflexivity.
Qed.

(** Rules that do not match are passed over. *)
Lemma run_rules_skip (pre l : list pyval) (s : string) :
  Forall (no_match s) pre ->
  run_rules (pre ++ l) s = run_rules l s.
Proof.
  induction 1 as [|r pre [q [Hq Hn]] _ IH]; [reflexivity|].
  simpl. rewrite Hq. simpl. rewrite Hn. exact IH.
Qed.

Lemma run_rules_no_match (rules : list pyval) (s : string) :
  Forall (no_match s) rules ->
  run_rules rules s = Ok None.
Proof.
  intros H. rewrite <- (app_nil_r rules). now rewrite run_rules_skip.
Qed.

(** The first rule whose pattern matches decides the result. *)
Lemma run_rules_first (r : pyval) (post : list pyval) (p : re.Pattern) (s : string) :
  Py.getitem r "match" = Ok (PPattern p) ->
  re.match_ p s <> None ->
  run_rules (r :: post) s =
    (repl <- Py.getitem r "replace" ;;
     out <- Py.re_sub p repl s ;;
     Ok (Some out))%result.
Proof.
  intros Hp Hm. simpl. rewrite Hp. simpl.
  destruct (re.match_ p s); [reflexivity | congruence].
Qed.

(** A result comes from a rule of the list whose pattern matches at the
    start. *)
Lemma run_rules_selected (rules : list pyval) (s out : string) :
  run_rules rules s = Ok (Some out) ->
  exists r p st,
    In r rules /\ Py.getitem r "match" = Ok (PPattern p) /\
    re.match_ p s = Some st.
Proof.
  induction rules as [|r rules IH]; simpl; [discriminate|].
  destruct (Py.getitem r "match") as [m|e] eqn:Hm; simpl; [|discriminate].
  destruct m; try discriminate.
  destruct (re.match_ p s) as [st|] eqn:Hs.
  - intros _. exists r, p, st. auto.
  - intros H. destruct (IH H) as (r' & p' & st' & Hin & H1 & H2).
    exists r', p', st'. auto.
Qed.

(** The result with rules before and after the first matching rule is
    the result for that rule alone. *)
Lemma run_subs_alone (R : pyval) (pre post : list pyval) (r : pyval)
    (p : re.Pattern) (s : string) :
  Py.getitem R "substitutions" = Ok (PList (pre ++ r :: post)) ->
  Forall (no_match s) pre ->
  Py.getitem r "match" = Ok (PPattern p) ->
  re.match_ p s <> None ->
  _run_subs R s = _run_subs (ruleset [r]) s.
Proof.
  intros HR Hpre Hp Hm.
  rewrite (run_subs_rules R _ s HR), run_rules_skip by assumption.
  rewrite (run_subs_rules (ruleset [r]) [r] s) by reflexivity.
  now rewrite !(run_rules_first r _ p s Hp Hm).
Qed.

(** C1.  In a rule set in which several rules match the input at its
    start, [_run_subs] returns what the earliest of them gives: the rules
    before it do not match and are passed over, and the rules after it,
    matching or not, have no part in the result, which is the result for
    the rule set made of the earliest matching rule alone. *)
Theorem first_match_wins (R : pyval) (pre post : list pyval) (r : pyval)
    (p : re.Pattern) (s : string) :
  Py.getitem R "substitutions" = Ok (PList (pre ++ r :: post)) ->
  Forall (no_match s) pre ->
  Py.getitem r "match" = Ok (PPattern p) ->
  re.match_ p s <> None ->
  _run_subs R s =
    (repl <- Py.getitem r "replace" ;;
     out <- Py.re_sub p repl s ;;
     Ok (Some out))%result
  /\ _run_subs R s = _run_subs (ruleset [r]) s.
Proof.
  intros HR Hpre Hp Hm. split.
  - rewrite (run_subs_rules R _ s HR).
    rewrite (run_rules_skip pre (r :: post) s Hpre).
    exact (run_rules_first r post p s Hp Hm).
  - exact (run_subs_alone R pre post r p s HR Hpre Hp Hm).
Qed.

(** C4.  When no rule's pattern matches at the start of the input,
    [_run_subs] returns [None]: it does not raise, and the value is
    neither the empty string nor the input. *)
Theorem no_match_returns_none (R : pyval) (rules : list pyval) (s : string) :
  Py.getitem R "substitutions" = Ok (PList rules) ->
  Forall (no_match s) rules ->
  _run_subs R s = Ok None
  /\ _run_subs R s <> Ok (Some "")
  /\ _run_subs R s <> Ok (Some s)
  /\ forall e, _run_subs R s <> Raise e.
Proof.
  intros HR Hno.
  rewrite (run_subs_rules R rules s HR), (run_rules_no_match rules s Hno).
  split; [reflexivity|]. split; [discriminate|]. split; [discriminate|].
  intros e; discriminate.
Qed.

(** ** Strings *)

Lemma append_nil_r (s : string) : (s ++ "")%string = s.
Proof. induction s as [|c s IH]; simpl; [reflexivity | now rewrite IH]. Qed.

Lemma append_assoc (a b c : string) :
  ((a ++ b) ++ c)%string = (a ++ (b ++ c))%string.
Proof. induction a as [|x a IH]; simpl; [reflexivity | now rewrite IH]. Qed.

Lemma length_append (a b : string) :
  String.length (a ++ b) = String.length a + String.length b.
Proof. induction a as [|x a IH]; simpl; [reflexivity | now rewrite IH]. Qed.

(** ** The matcher reads the subject from left to right *)

Lemma extends_refl (st : re.mstate) : extends st st.
Proof. exists ""%string. simpl. split; [reflexivity | lia]. Qed.

Lemma extends_trans (a b c : re.mstate) :
  extends a b -> extends b c -> extends a c.
Proof.
  intros [u [Hu Hp]] [v [Hv Hq]]. exists (u ++ v)%string.
  rewrite Hu, Hv, append_assoc, length_append. split; [reflexivity | lia].
Qed.

Lemma one_char_extends (ok : ascii -> bool) (st st' : re.mstate) :
  In st' (re.one_char ok st) -> extends st st'.
Proof.
  unfold re.one_char. destruct (re.rest st) as [|c s'] eqn:Hr; [intros []|].
  destruct (ok c); [|intros []]. intros [<- | []].
  exists (String c ""). simpl. split; [exact Hr | lia].
Qed.

Lemma extends_length (a b : re.mstate) :
  extends a b ->
  String.length (re.rest a)
  = (re.pos b - re.pos a) + String.length (re.rest b).
Proof.
  intros [u [Hu Hp]]. rewrite Hu, Hp, length_append. lia.
Qed.

Lemma flat_map_ext_in {A B : Type} (f g : A -> list B) (l : list A) :
  (forall x, In x l -> f x = g x) -> flat_map f l = flat_map g l.
Proof.
  induction l as [|a l IH]; intros H; simpl; [reflexivity|].
  rewrite (H a (or_introl eq_refl)), IH; [reflexivity|].
  intros x Hx. apply H. now right.
Qed.

Section Star.
Variable step : re.mstate -> list re.mstate.
Hypothesis step_extends : forall a b, In b (step a) -> extends a b.

Lemma star_loop_extends (greedy : bool) (fuel : nat) :
  forall st st', In st' (re.star_loop step greedy fuel st) -> extends st st'.
Proof.
  induction fuel as [|fuel IH]; intros st st'; simpl.
  - intros [<- | []]. apply extends_refl.
  - intros H.
    assert (Hmore :
      In st' (flat_map
                (fun x => if Nat.ltb (re.pos st) (re.pos x)
                          then re.star_loop step greedy fuel x else [x])
                (step st)) -> extends st st').
    { intros Hin. apply in_flat_map in Hin. destruct Hin as [x [Hx Hin]].
      apply extends_trans with x; [now apply step_extends|].
      destruct (Nat.ltb (re.pos st) (re.pos x)).
      - now apply IH.
      - destruct Hin as [<- | []]. apply extends_refl. }
    destruct greedy.
    + apply in_app_or in H. destruct H as [H | [<- | []]];
        [now apply Hmore | apply extends_refl].
    + destruct H as [<- | H]; [apply extends_refl | now apply Hmore].
Qed.

(** The fuel of [re.star] is enough: more fuel gives the same
    result. *)
Lemma star_loop_fuel (greedy : bool) (fuel : nat) :
  forall fuel' st,
    String.length (re.rest st) < fuel ->
    String.length (re.rest st) < fuel' ->
    re.star_loop step greedy fuel st = re.star_loop step greedy fuel' st.
Proof.
  induction fuel as [|fuel IH]; intros fuel' st H H'; [lia|].
  destruct fuel' as [|fuel']; [lia|]. simpl.
  rewrite (flat_map_ext_in
             (fun x => if Nat.ltb (re.pos st) (re.pos x)
                       then re.star_loop step greedy fuel x else [x])
             (fun x => if Nat.ltb (re.pos st) (re.pos x)
                       then re.star_loop step greedy fuel' x else [x]));
    [reflexivity|].
  intros x Hx. destruct (Nat.ltb (re.pos st) (re.pos x)) eqn:Hlt; [|reflexivity].
  apply Nat.ltb_lt in Hlt.
  pose proof (extends_length st x (step_extends st x Hx)) as Hlen.
  apply IH; lia.
Qed.

Lemma star_more_fuel (greedy : bool) (st : re.mstate) (extra : nat) :
  re.star step greedy st
  = re.star_loop step greedy (S (String.length (re.rest st)) + extra) st.
Proof. unfold re.star. apply star_loop_fuel; lia. Qed.

Lemma star_extends (greedy : bool) (st st' : re.mstate) :
  In st' (re.star step greedy st) -> extends st st'.
Proof. apply star_loop_extends. Qed.
End Star.

Lemma run_extends (r : re.regex) :
  forall st st', In st' (re.run r st) -> extends st st'.
Proof.
  induction r as [| c | | k b | | | r1 IH1 r2 IH2 | r1 IH1 r2 IH2
                 | g r1 IH1 | g r1 IH1 | g r1 IH1 | n r1 IH1];
    intros st st'; simpl.
  - intros [<- | []]. apply extends_refl.
  - apply one_char_extends.
  - apply one_char_extends.
  - apply one_char_extends.
  - destruct (Nat.eqb (re.pos st) 0); [|intros []].
    intros [<- | []]. apply extends_refl.
  - destruct (re.at_end (re.rest st)); [|intros []].
    intros [<- | []]. apply extends_refl.
  - intros H. apply in_flat_map in H. destruct H as [x [Hx H]].
    apply extends_trans with x; [now apply IH1 | now apply IH2].
  - intros H. apply in_app_or in H. destruct H; [now apply IH1 | now apply IH2].
  - apply star_extends. exact IH1.
  - intros H. apply in_flat_map in H. destruct H as [x [Hx H]].
    apply extends_trans with x; [now apply IH1|].
    now apply (star_extends _ IH1) in H.
  - destruct g; intros H.
    + apply in_app_or in H. destruct H as [H | [<- | []]];
        [now apply IH1 | apply extends_refl].
    + destruct H as [<- | H]; [apply extends_refl | now apply IH1].
  - intros H. apply in_map_iff in H. destruct H as [x [<- Hx]].
    destruct (IH1 _ _ Hx) as [u Hu]. exists u. exact Hu.
Qed.

(** So the repetition of a pattern does not depend on its fuel. *)
Lemma run_star_fuel (greedy : bool) (r : re.regex) (st : re.mstate) (extra : nat) :
  re.run (re.Star greedy r) st
  = re.star_loop (re.run r) greedy (S (String.length (re.rest st)) + extra) st.
Proof. exact (star_more_fuel (re.run r) (run_extends r) greedy st extra). Qed.

(** A match found by [Pattern.match] starts at the first character and
    covers a prefix of the subject. *)
Lemma match_covers_prefix (p : re.Pattern) (s : string) (st : re.mstate) :
  re.match_ p s = Some st ->
  exists u, s = (u ++ re.rest st)%string /\ re.pos st = String.length u.
Proof.
  unfold re.match_, re.match_from. intros H.
  destruct (re.run (re.prog p) _) as [|x l] eqn:Hrun; [discriminate|].
  injection H as ->.
  assert (Hin : In st (re.run (re.prog p)
                         {| re.pos := 0; re.rest := s; re.caps := [] |})).
  { rewrite Hrun. now left. }
  apply run_extends in Hin. destruct Hin as [u [Hu Hp]].
  exists u. simpl in *. split; assumption.
Qed.

(** A pattern that [Pattern.search] first finds after the start is not
    matched by [Pattern.match]. *)
Lemma search_later_no_match (p : re.Pattern) (s : string) (i : nat) (st : re.mstate) :
  re.search p s = Some (i, st) -> 0 < i -> re.match_ p s = None.
Proof.
  unfold re.search, re.match_. intros H Hi.
  destruct s as [|c s']; simpl in H;
    destruct (hd_error (re.match_from p 0 _)) as [st0|] eqn:Hhd;
    try reflexivity; injection H as <- _; lia.
Qed.

(** C2.  A rule is selected only when its pattern matches from the first
    character of the input, and a match of a prefix is enough: the match
    reads some [u] with [input = u ++ v] and need not reach the end.  A
    pattern that [search] first finds at a later index selects nothing.
    So [foo] selects on [foobar], and neither [^foo] nor [foo] selects on
    [xfoo], where [foo] occurs at index 1. *)
Theorem start_anchored_selection :
  (forall R rules s out,
      Py.getitem R "substitutions" = Ok (PList rules) ->
      _run_subs R s = Ok (Some out) ->
      exists r p st u,
        In r rules /\ Py.getitem r "match" = Ok (PPattern p) /\
        re.match_ p s = Some st /\
        s = (u ++ re.rest st)%string /\ re.pos st = String.length u)
  /\ (forall p repl s i st,
         re.search p s = Some (i, st) -> 0 < i ->
         _run_subs (ruleset [rule p repl]) s = Ok None)
  /\ (R <- _generate_cli_adhoc_rules (Some "foo") (Some "bar") ;;
      _run_subs R "foobar")%result = Ok (Some "barbar")
  /\ (exists st, re.search (pattern_of "foo") "xfoo" = Some (1, st))
  /\ (R <- _generate_cli_adhoc_rules (Some "foo") (Some "bar") ;;
      _run_subs R "xfoo")%result = Ok None
  /\ (R <- _generate_cli_adhoc_rules (Some "^foo") (Some "bar") ;;
      _run_subs R "xfoo")%result = Ok None.
Proof.
  split; [|split; [|split; [|split; [|split]]]].
  - intros R rules s out HR H.
    rewrite (run_subs_rules R rules s HR) in H.
    destruct (run_rules_selected rules s out H) as (r & p & st & Hin & Hp & Hm).
    destruct (match_covers_prefix p s st Hm) as [u [Hu Hl]].
    exists r, p, st, u. auto.
  - intros p repl s i st Hs Hi.
    unfold _run_subs, ruleset, rule. simpl.
    now rewrite (search_later_no_match p s i st Hs Hi).
  - reflexivity.
  - eexists. reflexivity.
  - reflexivity.
  - reflexivity.
Qed.

(** ** Substitution of a literal character *)

Lemma parse_template_plain (n : nat) (b : string) :
  has_backslash b = false ->
  re.parse_template n b = Ok (map re.TChar (list_ascii_of_string b)).
Proof.
  induction b as [|c b IH]; simpl; [reflexivity|].
  intros H. apply orb_false_iff in H. destruct H as [Hc Hb].
  rewrite Hc, (IH Hb). reflexivity.
Qed.

Lemma expand_plain (b : string) (st : re.mstate) :
  re.expand (map re.TChar (list_ascii_of_string b)) st = b.
Proof. induction b as [|c b IH]; simpl; [reflexivity | now rewrite IH]. Qed.

Lemma sub_loop_literal (c : ascii) (b : string) (s : string) :
  forall i,
    re.sub_loop (literal c) (map re.TChar (list_ascii_of_string b)) i 0 s
    = replace_all c b s.
Proof.
  induction s as [|x s IH]; intros i; [reflexivity|].
  cbn [re.sub_loop replace_all].
  unfold re.first_match, re.match_from. cbn [re.prog literal re.run].
  unfold re.one_char. cbn [re.rest re.pos re.caps].
  destruct (Ascii.eqb c x).
  - cbn [find negb orb re.pos]. rewrite expand_plain.
    rewrite (proj2 (Nat.ltb_lt i (S i)) (Nat.lt_succ_diag_r i)).
    rewrite Nat.sub_diag, IH. reflexivity.
  - cbn [find]. now rewrite IH.
Qed.

(** ** Substitution of every occurrence *)

(** A match found at index [i] ends at or after [i], on a suffix of the
    subject. *)
Lemma first_match_extends (p : re.Pattern) (i : nat) (s : string) (advance : bool)
    (st : re.mstate) :
  re.first_match p i s advance = Some st ->
  (exists u, s = (u ++ re.rest st)%string /\ re.pos st = i + String.length u)
  /\ (advance = true -> i < re.pos st).
Proof.
  unfold re.first_match, re.match_from. intros H.
  apply find_some in H. destruct H as [Hin Hok]. split.
  - apply run_extends in Hin. exact Hin.
  - intros ->. cbn [negb orb] in Hok. now apply Nat.ltb_lt.
Qed.

(** The characters of a match that has been replaced are passed over. *)
Lemma sub_loop_skip (p : re.Pattern) (t : list re.titem) (u s : string) :
  forall i,
    re.sub_loop p t i (String.length u) (u ++ s)
    = re.sub_loop p t (i + String.length u) 0 s.
Proof.
  induction u as [|c u IH]; intros i.
  - cbn [String.length append]. now rewrite Nat.add_0_r.
  - cbn [String.length append re.sub_loop].
    replace (S i + String.length u - S i) with (String.length u) by lia.
    rewrite IH. f_equal. lia.
Qed.

Lemma sub_loop_eq (p : re.Pattern) (t : list re.titem) (i : nat) (s : string) :
  re.sub_loop p t i 0 s
  = let step_over (e : nat) :=
      match s with
      | EmptyString => ""
      | String _ s' => re.sub_loop p t (S i) (e - S i) s'
      end in
    let copy_one :=
      match s with
      | EmptyString => ""
      | String c s' => String c (re.sub_loop p t (S i) 0 s')
      end in
    match re.first_match p i s false with
    | None => copy_one
    | Some st =>
        (re.expand t st ++
         if Nat.ltb i (re.pos st) then step_over (re.pos st)
         else
           match re.first_match p i s true with
           | Some st2 => re.expand t st2 ++ step_over (re.pos st2)
           | None => copy_one
           end)%string
    end.
Proof. destruct s; reflexivity. Qed.

(** After a match that is not empty the loop goes on at its end. *)
Lemma sub_loop_after_match (p : re.Pattern) (t : list re.titem) (i : nat)
    (s : string) (advance : bool) (st : re.mstate) :
  re.first_match p i s advance = Some st ->
  i < re.pos st ->
  match s with
  | EmptyString => ""
  | String _ s' => re.sub_loop p t (S i) (re.pos st - S i) s'
  end = re.sub_loop p t (re.pos st) 0 (re.rest st)
  /\ String.length (re.rest st) < String.length s.
Proof.
  intros H Hlt. destruct (first_match_extends p i s advance st H) as [[u [Hu Hp]] _].
  destruct u as [|c u]; [cbn in Hp; lia|].
  subst s. cbn [append String.length] in *. split.
  - replace (re.pos st - S i) with (String.length u) by lia.
    rewrite sub_loop_skip. f_equal. lia.
  - rewrite length_append. lia.
Qed.

(** After an empty match nothing has been read. *)
Lemma first_match_empty (p : re.Pattern) (i : nat) (s : string) (advance : bool)
    (st : re.mstate) :
  re.first_match p i s advance = Some st ->
  ~ i < re.pos st ->
  re.pos st = i /\ re.rest st = s.
Proof.
  intros H Hn. destruct (first_match_extends p i s advance st H) as [[u [Hu Hp]] _].
  destruct u as [|c u]; [|cbn in Hp; lia].
  cbn in *. split; [lia | now symmetry].
Qed.

(** What [re.sub] computes is the replacement of every occurrence. *)
Lemma sub_loop_replaces_all (p : re.Pattern) (t : list re.titem) (n : nat) :
  forall s i,
    String.length s <= n ->
    replaces_all p t i false s (re.sub_loop p t i 0 s).
Proof.
  induction n as [|n IH]; intros s i Hn.
  - destruct s; [|cbn in Hn; lia]. rewrite sub_loop_eq. cbv zeta.
    destruct (re.first_match p i "" false) as [st|] eqn:H0;
      [|now apply replaces_end].
    destruct (first_match_extends p i "" false st H0) as [[u [Hu Hp]] _].
    destruct u; [|discriminate]. cbn in Hu, Hp.
    assert (Hpos : re.pos st = i) by lia.
    rewrite Hpos, Nat.ltb_irrefl.
    apply (replaces_match p t i false "" st); [exact H0|].
    rewrite Hpos, Nat.eqb_refl, <- Hu.
    destruct (re.first_match p i "" true) as [st2|] eqn:H1.
    + destruct (first_match_extends p i "" true st2 H1) as [[v [Hv Hq]] Hadv].
      specialize (Hadv eq_refl). destruct v; [cbn in Hq; lia | discriminate].
    + now apply replaces_end.
  - rewrite sub_loop_eq. cbv zeta.
    assert (Hcopy : forall advance,
               re.first_match p i s advance = None ->
               replaces_all p t i advance s
                 match s with
                 | EmptyString => ""
                 | String c s' => String c (re.sub_loop p t (S i) 0 s')
                 end).
    { intros advance H. destruct s as [|c s'].
      - now apply replaces_end.
      - apply replaces_copy; [exact H|]. apply IH. cbn in Hn. lia. }
    assert (Hhit : forall advance st,
               re.first_match p i s advance = Some st ->
               i < re.pos st ->
               replaces_all p t i advance s
                 (re.expand t st ++
                  match s with
                  | EmptyString => ""
                  | String _ s' => re.sub_loop p t (S i) (re.pos st - S i) s'
                  end)).
    { intros advance st H Hlt.
      destruct (sub_loop_after_match p t i s advance st H Hlt) as [-> Hlen].
      apply (replaces_match p t i advance s st); [exact H|].
      replace (Nat.eqb (re.pos st) i) with false
        by (symmetry; apply Nat.eqb_neq; lia).
      apply IH. lia. }
    destruct (re.first_match p i s false) as [st|] eqn:H0; [|now apply Hcopy].
    destruct (Nat.ltb i (re.pos st)) eqn:Hlt.
    + apply Nat.ltb_lt in Hlt. now apply Hhit.
    + apply Nat.ltb_ge in Hlt.
      destruct (first_match_empty p i s false st H0) as [Hpos Hrest]; [lia|].
      apply (replaces_match p t i false s st); [exact H0|].
      rewrite Hpos, Nat.eqb_refl, Hrest.
      destruct (re.first_match p i s true) as [st2|] eqn:H1.
      * apply Hhit; [exact H1|].
        exact (proj2 (first_match_extends p i s true st2 H1) eq_refl).
      * now apply Hcopy.
Qed.

(** The replacement of every occurrence is one string. *)
Lemma replaces_all_unique (p : re.Pattern) (t : list re.titem) (i : nat)
    (advance : bool) (s out : string) :
  replaces_all p t i advance s out ->
  forall out', replaces_all p t i advance s out' -> out' = out.
Proof.
  induction 1 as [i advance H0 | i advance c s out H0 _ IH
                 | i advance s st out H0 _ IH]; intros out' H'.
  - inversion H' as [? ? H1 | | ? ? ? st' ? H1 ?]; subst; [reflexivity|].
    rewrite H0 in H1. discriminate.
  - inversion H' as [ | ? ? ? ? out0 H1 H2 | ? ? ? st' out0 H1 H2]; subst.
    + f_equal. now apply IH.
    + rewrite H0 in H1. discriminate.
  - inversion H' as [? ? H1 | ? ? ? ? out0 H1 H2 | ? ? ? st' out0 H1 H2]; subst;
      rewrite H0 in H1; try discriminate.
    injection H1 as <-. f_equal. now apply IH.
Qed.

(** C3.  The substitution of the selected rule replaces every occurrence
    of the pattern in the input, not the first one alone.  Whatever the
    pattern of the first matching rule and whatever its replacement, as
    long as [re.sub] accepts it as a template, the result of [_run_subs]
    is the replacement of every occurrence in the input, and no other
    string is.  For a rule whose pattern is one literal character [c]
    and whose replacement [b] has no backslash, on an input that starts
    with [c], the result is the input with each [c] replaced by [b]; the
    rule [match="a"], [replace="b"] turns [aaa] into [bbb] and [a-a-a]
    into [b-b-b], and the rule [match="foo"], [replace="bar"] turns
    [foo-foo] into [bar-bar]. *)
Theorem substitutes_all_occurrences :
  (forall R pre r post p repl t s,
      Py.getitem R "substitutions" = Ok (PList (pre ++ r :: post)) ->
      Forall (no_match s) pre ->
      Py.getitem r "match" = Ok (PPattern p) ->
      re.match_ p s <> None ->
      Py.getitem r "replace" = Ok (PStr repl) ->
      re.parse_template (re.groups p) repl = Ok t ->
      exists out,
        _run_subs R s = Ok (Some out)
        /\ replaces_all p t 0 false s out
        /\ forall out', replaces_all p t 0 false s out' -> out' = out)
  /\ (forall (c : ascii) (b s : string),
         has_backslash b = false ->
         _run_subs (ruleset [rule (literal c) (PStr b)]) (String c s)
         = Ok (Some (replace_all c b (String c s))))
  /\ re.compile "a" = Ok (literal "a")
  /\ (R <- _generate_cli_adhoc_rules (Some "a") (Some "b") ;;
      _run_subs R "aaa")%result = Ok (Some "bbb")
  /\ (R <- _generate_cli_adhoc_rules (Some "a") (Some "b") ;;
      _run_subs R "a-a-a")%result = Ok (Some "b-b-b")
  /\ (R <- _generate_cli_adhoc_rules (Some "foo") (Some "bar") ;;
      _run_subs R "foo-foo")%result = Ok (Some "bar-bar").
Proof.
  split; [|split; [|split; [|split; [|split]]]]; try reflexivity.
  - intros R pre r post p repl t s HR Hpre Hp Hm Hr Ht.
    exists (re.sub_loop p t 0 0 s).
    pose proof (sub_loop_replaces_all p t (String.length s) s 0 (le_n _)) as Hall.
    split; [|split; [exact Hall | exact (replaces_all_unique p t 0 false s _ Hall)]].
    rewrite (run_subs_rules R _ s HR), (run_rules_skip pre (r :: post) s Hpre).
    rewrite (run_rules_first r post p s Hp Hm), Hr. cbn [rbind Py.re_sub].
    unfold re.sub. now rewrite Ht.
  - intros c b s Hb.
    unfold _run_subs, ruleset, rule. cbn [Py.getitem Py.dict_get String.eqb Ascii.eqb
      Bool.eqb rbind Py.iter run_rules].
    assert (Hm : exists st, re.match_ (literal c) (String c s) = Some st).
    { unfold re.match_, re.match_from. cbn. rewrite Ascii.eqb_refl. eexists. reflexivity. }
    destruct Hm as [st ->].
    cbn [rbind Py.re_sub]. unfold re.sub.
    rewrite (parse_template_plain _ b Hb). cbn [rbind].
    now rewrite sub_loop_literal.
Qed.

(** ** Configuration path *)

(** C6, as the program has it.  When pathlib can tell the home directory
    and its look at the candidate there completes,
    [_get_config_filename] returns a path: the value of [SARLAC_CONFIG]
    when it is set and not empty, whether or not a file is there;
    otherwise the candidate in the home directory when a file exists
    there, and the system-wide path when none does.  With the override
    set and files at the home candidate and at the system-wide path, the
    override is returned. *)
Theorem config_precedence :
  (forall w h found,
      Path_home w = Ok h ->
      is_file w (home_candidate h) = Ok found ->
      (forall e,
          environ w "SARLAC_CONFIG" = Some e -> e <> "" ->
          _get_config_filename w = Ok e)
      /\ (environ w "SARLAC_CONFIG" = None \/ environ w "SARLAC_CONFIG" = Some "" ->
          (found = true -> _get_config_filename w = Ok (home_candidate h))
          /\ (found = false -> _get_config_filename w = Ok globalfile)))
  /\ (homefile configured = Ok "/home/u/.sarlac.yaml"
      /\ is_file configured "/home/u/.sarlac.yaml" = Ok true
      /\ is_file configured globalfile = Ok true
      /\ _get_config_filename configured = Ok "/tmp/rules.yaml")
  /\ _get_config_filename configured_home = Ok "/home/u/.sarlac.yaml"
  /\ _get_config_filename bare = Ok "/usr/local/etc/sarlac.yaml".
Proof.
  split; [|split; [|split]].
  - intros w h found Hh Hf. unfold _get_config_filename, homefile.
    rewrite Hh. cbn [rbind]. rewrite Hf. cbn [rbind]. split.
    + intros e He Hne. rewrite He. cbn [Py.truthy].
      apply String.eqb_neq in Hne. now rewrite Hne.
    + intros [-> | ->]; cbn [Py.truthy String.eqb negb];
        split; intros ->; reflexivity.
  - repeat split; reflexivity.
  - reflexivity.
  - reflexivity.
Qed.

(** ** Effects of the input loop *)

Lemma for_each_open_calls {A : Type} (body : A -> IO unit) (l : list A) :
  (forall a q, open_calls (fst (body a q)) = open_calls q) ->
  forall q, open_calls (fst (for_each l body q)) = open_calls q.
Proof.
  intros Hbody. induction l as [|a l IH]; intros q; [reflexivity|].
  simpl. unfold bind. specialize (Hbody a q).
  destruct (body a q) as [q' [[]|e]]; simpl in *; [|exact Hbody].
  now rewrite IH.
Qed.

Lemma echo_step_open_calls (w : World) (R : pyval) (f : string -> string)
    (a : string) (q : Proc) :
  open_calls (fst ((out <- lift (_run_subs R (f a)) ;; click_echo w out)%io q))
  = open_calls q.
Proof.
  unfold bind, lift. destruct (_run_subs R (f a)); reflexivity.
Qed.

(** [_process_input] opens no file. *)
Lemma process_input_open_calls (w : World) (R : pyval) (args : list string) (q : Proc) :
  open_calls (fst (_process_input w R args q)) = open_calls q.
Proof.
  unfold _process_input, bind at 1, lift at 1.
  destruct (last_arg args) as [a|e]; [|reflexivity].
  destruct (String.eqb a "-").
  - apply for_each_open_calls. intros x q'.
    apply (echo_step_open_calls w R Py.rstrip).
  - apply for_each_open_calls. intros x q'.
    apply (echo_step_open_calls w R (fun s => s)).
Qed.

(** For [None], [click.echo] writes an empty line, on a terminal or
    not. *)
Lemma echoed_none (isatty : bool) : click.echoed isatty None = nl.
Proof. destruct isatty; reflexivity. Qed.

(** An input that no rule matches adds one empty line to the output. *)
Lemma for_each_no_match (w : World) (R : pyval) (f : string -> string)
    (l : list string) :
  Forall (fun s => _run_subs R (f s) = Ok None) l ->
  forall q,
    for_each l (fun instr => out <- lift (_run_subs R (f instr)) ;; click_echo w out)%io q
    = ({| stdout := (stdout q ++ empty_lines (length l))%string;
          open_calls := open_calls q |}, Ok tt).
Proof.
  induction 1 as [|a l Ha _ IH]; intros q.
  - simpl. unfold ret. rewrite append_nil_r. now destruct q.
  - cbn [for_each]. unfold bind at 1. unfold bind at 1, lift. rewrite Ha.
    unfold click_echo at 1. rewrite IH, echoed_none.
    cbn [stdout open_calls length empty_lines].
    now rewrite append_assoc.
Qed.

(** C9, as the program has it.  An input that no rule matches is still
    handed to the output step, with [None] as the message, and
    [click.echo] writes an empty line for it: the output grows by one
    line terminator for each such input and by nothing else.  No file is
    opened. *)
Theorem no_match_prints_empty_line (w : World) (R : pyval) (args : list string)
    (a : string) (q : Proc) :
  last_arg args = Ok a ->
  Forall (fun s => _run_subs R s = Ok None) (input_strings w args) ->
  _process_input w R args q
  = ({| stdout := (stdout q ++ empty_lines (length (input_strings w args)))%string;
        open_calls := open_calls q |}, Ok tt).
Proof.
  unfold input_strings, _process_input. intros -> H.
  unfold bind at 1, lift at 1.
  destruct (String.eqb a "-").
  - rewrite length_map. apply Forall_map in H.
    exact (for_each_no_match w R Py.rstrip (stdin w) H q).
  - exact (for_each_no_match w R (fun s => s) args H q).
Qed.

(** C10.  [_process_input] looks at the last positional argument before
    anything else, so with no positional argument it raises [IndexError],
    whatever the rules and the machine; [main] gets there when both
    ad-hoc values are given, the pattern compiles and
    [_get_config_filename] has returned, and then nothing has been
    written and no file opened. *)
Theorem empty_input_index_error (w : World) (m r : string) (p : re.Pattern)
    (config : string) :
  m <> "" -> r <> "" -> re.compile m = Ok p ->
  _get_config_filename w = Ok config ->
  (forall R q, _process_input w R [] q = (q, Raise IndexError))
  /\ main w (Some m) (Some r) [] start = (start, Raise IndexError).
Proof.
  intros Hm Hr Hp Hc. split; [reflexivity|].
  apply String.eqb_neq in Hm, Hr.
  unfold main, _generate_cli_adhoc_rules.
  cbn [Py.of_option Py.truthy]. rewrite Hm, Hr. cbn [negb andb].
  rewrite Hp, Hc. reflexivity.
Qed.

(** ** Rules with a valid replacement *)

Lemma run_rules_valid (rules : list pyval) (s : string) :
  Forall valid_rule rules ->
  (Forall (no_match s) rules /\ run_rules rules s = Ok None)
  \/ (exists pre r post p repl t,
         rules = pre ++ r :: post /\ Forall (no_match s) pre /\
         Py.getitem r "match" = Ok (PPattern p) /\
         re.match_ p s <> None /\
         Py.getitem r "replace" = Ok (PStr repl) /\
         re.parse_template (re.groups p) repl = Ok t /\
         run_rules rules s = Ok (Some (re.sub_loop p t 0 0 s))).
Proof.
  induction 1 as [|r rules (p & repl & t & Hp & Hr & Ht) _ IH].
  - left. split; [constructor | reflexivity].
  - destruct (re.match_ p s) as [st|] eqn:Hm.
    + right. exists [], r, rules, p, repl, t.
      repeat (split; [first [reflexivity | assumption | constructor | congruence]|]).
      cbn [run_rules]. rewrite Hp. cbn [rbind]. rewrite Hm, Hr. cbn [rbind Py.re_sub].
      unfold re.sub. rewrite Ht. reflexivity.
    + assert (Hno : no_match s r) by (exists p; auto).
      destruct IH as [[Hall Hrun] | (pre & r' & post & p' & repl' & t' & -> & Hpre & H1 & H2 & H3 & H4 & Hrun)].
      * left. split; [now constructor|].
        cbn [run_rules]. rewrite Hp. cbn [rbind]. now rewrite Hm.
      * right. exists (r :: pre), r', post, p', repl', t'.
        repeat (split; [first [reflexivity | assumption | now constructor]|]).
        cbn [run_rules app]. rewrite Hp. cbn [rbind]. now rewrite Hm.
Qed.

(** C8, as the program has it.  When every rule has a compiled pattern
    and a replacement string that is a valid template for that pattern,
    [_run_subs] does not raise on any input: it returns [None] when no
    rule matches, and otherwise the substitution of the first matching
    rule, which is what that rule alone would give. *)
Theorem run_subs_total_on_valid_rules (R : pyval) (rules : list pyval) (s : string) :
  Py.getitem R "substitutions" = Ok (PList rules) ->
  Forall valid_rule rules ->
  (Forall (no_match s) rules /\ _run_subs R s = Ok None)
  \/ (exists pre r post p repl t,
         rules = pre ++ r :: post /\ Forall (no_match s) pre /\
         Py.getitem r "match" = Ok (PPattern p) /\
         re.match_ p s <> None /\
         Py.getitem r "replace" = Ok (PStr repl) /\
         re.parse_template (re.groups p) repl = Ok t /\
         _run_subs R s = Ok (Some (re.sub_loop p t 0 0 s)) /\
         _run_subs R s = _run_subs (ruleset [r]) s).
Proof.
  intros HR Hv. rewrite (run_subs_rules R rules s HR).
  destruct (run_rules_valid rules s Hv)
    as [H | (pre & r & post & p & repl & t & -> & Hpre & Hp & Hm & Hr & Ht & Hrun)].
  - now left.
  - right. exists pre, r, post, p, repl, t.
    repeat (split; [first [reflexivity | assumption]|]).
    rewrite <- (run_subs_rules R _ s HR).
    exact (run_subs_alone R pre post r p s HR Hpre Hp Hm).
Qed.

(** ** The loader *)

Lemma read_file_error_kind (w : World) (path : string) (e : exn) :
  read_file w path = Raise e -> error_kind e = Some ConfigNotFoundError.
Proof.
  unfold read_file. destruct (fs w path) as [[[] text| |]|]; intros H;
    try discriminate; injection H as <-; reflexivity.
Qed.

Lemma getitem_error_kind (obj : pyval) (key : string) (e : exn) :
  Py.getitem obj key = Raise e -> error_kind e = Some ConfigParseError.
Proof.
  destruct obj; simpl; intros H; try (injection H as <-; reflexivity).
  destruct (Py.dict_get d key); [discriminate | injection H as <-; reflexivity].
Qed.

Lemma dict_get_set (d : list (string * pyval)) (k : string) (v : pyval) :
  Py.dict_get (Py.dict_set d k v) k = Some v.
Proof.
  induction d as [|[k' v'] d IH]; simpl.
  - now rewrite String.eqb_refl.
  - destruct (String.eqb k' k) eqn:Hk; simpl; rewrite Hk; [reflexivity | exact IH].
Qed.

Lemma getitem_setitem (obj obj' : pyval) (k : string) (v : pyval) :
  Py.setitem obj k v = Ok obj' -> Py.getitem obj' k = Ok v.
Proof.
  destruct obj; simpl; try discriminate. intros H. injection H as <-.
  simpl. now rewrite dict_get_set.
Qed.

Lemma mapM_Forall2 {A B : Type} (f : A -> result B) (l : list A) :
  forall l', mapM f l = Ok l' -> Forall2 (fun a b => f a = Ok b) l l'.
Proof.
  induction l as [|a l IH]; simpl; intros l' H.
  - injection H as <-. constructor.
  - destruct (f a) as [b|e] eqn:Hf; simpl in H; [|discriminate].
    destruct (mapM f l) as [bs|e]; simpl in H; [|discriminate].
    injection H as <-. constructor; [exact Hf | now apply IH].
Qed.

(** The loop stops at the first entry that fails. *)
Lemma mapM_first_error {A B : Type} (f : A -> result B) (pre post : list A)
    (a : A) (e : exn) :
  (forall x, In x pre -> exists y, f x = Ok y) ->
  f a = Raise e ->
  mapM f (pre ++ a :: post) = Raise e.
Proof.
  intros Hpre Ha. induction pre as [|x pre IH]; simpl.
  - now rewrite Ha.
  - destruct (Hpre x (or_introl eq_refl)) as [y ->]. simpl.
    rewrite IH; [reflexivity|]. intros z Hz. apply Hpre. now right.
Qed.

Lemma compile_rule_compiled (r r' : pyval) :
  compile_rule r = Ok r' ->
  exists p, Py.getitem r' "match" = Ok (PPattern p).
Proof.
  unfold compile_rule. destruct (Py.getitem r "match") as [m|e]; [|discriminate].
  simpl. destruct (Py.re_compile m) as [p|e]; [|discriminate]. simpl.
  intros H. exists p. exact (getitem_setitem _ _ _ _ H).
Qed.

(** [_parse_config] calls [open] once, and its result is that of reading,
    loading and compiling in turn. *)
Lemma parse_config_eq (w : World) (path : string) (q : Proc) :
  _parse_config w path q
  = (logged path q,
     (text <- read_file w path ;;
      config <- yaml_safe_load w text ;;
      subs <- Py.getitem config "substitutions" ;;
      rules <- Py.iter subs ;;
      rules' <- mapM compile_rule rules ;;
      match subs with
      | PList _ => Py.setitem config "substitutions" (PList rules')
      | _ => Ok config
      end)%result).
Proof.
  unfold _parse_config, bind, open_read, lift.
  destruct (read_file w path) as [text|e]; [|reflexivity]. simpl.
  destruct (yaml_safe_load w text); reflexivity.
Qed.

(** C7, as the program has it.  The loader raises, and returns no rule
    set, when the file cannot be read (an [OSError]), when it is not
    valid YAML ([YAMLError]), when the document has no [substitutions]
    key or an entry has no [match] key ([KeyError], or [TypeError] when
    the value is not a mapping), and when a pattern is invalid
    ([re.error]); the first failing entry ends the loading.  When it
    returns, every entry of the document has been compiled, in order.
    Nothing is required of the [replace] key. *)
Theorem loader_fails_or_compiles_all (w : World) (path : string) :
  let out := snd (_parse_config w path start) in
  (forall e, read_file w path = Raise e ->
     out = Raise e /\ error_kind e = Some ConfigNotFoundError)
  /\ (forall text, read_file w path = Ok text ->
      (yaml_safe_load w text = Raise YAMLError ->
         out = Raise YAMLError /\ error_kind YAMLError = Some ConfigParseError)
      /\ (forall config, yaml_safe_load w text = Ok config ->
          (forall e, Py.getitem config "substitutions" = Raise e ->
             out = Raise e /\ error_kind e = Some ConfigParseError)
          /\ (forall rules,
                Py.getitem config "substitutions" = Ok (PList rules) ->
                (forall pre r post e,
                    rules = pre ++ r :: post ->
                    (forall x, In x pre -> exists y, compile_rule x = Ok y) ->
                    compile_rule r = Raise e ->
                    out = Raise e)
                /\ (forall r e,
                       Py.getitem r "match" = Raise e ->
                       compile_rule r = Raise e
                       /\ error_kind e = Some ConfigParseError)
                /\ (forall r m,
                       Py.getitem r "match" = Ok (PStr m) ->
                       re.compile m = Raise re_error ->
                       compile_rule r = Raise re_error
                       /\ error_kind re_error = Some InvalidPatternError)
                /\ (forall R, out = Ok R ->
                      exists rules',
                        Py.getitem R "substitutions" = Ok (PList rules')
                        /\ Forall2
                             (fun r r' =>
                                compile_rule r = Ok r'
                                /\ exists p, Py.getitem r' "match" = Ok (PPattern p))
                             rules rules')))).
Proof.
  cbv zeta. rewrite parse_config_eq. cbn [snd]. split.
  - intros e He. rewrite He. split; [reflexivity|].
    exact (read_file_error_kind w path e He).
  - intros text ->. cbn [rbind]. split.
    + intros ->. split; reflexivity.
    + intros config ->. cbn [rbind]. split.
      * intros e He. rewrite He. split; [reflexivity|].
        exact (getitem_error_kind _ _ e He).
      * intros rules ->. cbn [rbind Py.iter].
        split; [|split; [|split]].
        -- intros pre r post e -> Hpre Hr.
           now rewrite (mapM_first_error compile_rule pre post r e Hpre Hr).
        -- intros r e He. unfold compile_rule. rewrite He. split; [reflexivity|].
           exact (getitem_error_kind _ _ e He).
        -- intros r m Hm Hc. unfold compile_rule. rewrite Hm. cbn [rbind Py.re_compile].
           rewrite Hc. split; reflexivity.
        -- intros R. destruct (mapM compile_rule rules) as [rules'|e] eqn:Hmap;
             [|discriminate].
           cbn [rbind]. intros HR. exists rules'. split.
           ++ exact (getitem_setitem _ _ _ _ HR).
           ++ apply mapM_Forall2 in Hmap.
              eapply Forall2_impl; [|exact Hmap].
              intros a b Hab. split; [exact Hab|].
              exact (compile_rule_compiled a b Hab).
Qed.

(** ** Choice of the rule source *)

Lemma adhoc_none (m r : option string) :
  Py.truthy (Py.of_option m) && Py.truthy (Py.of_option r) = false ->
  _generate_cli_adhoc_rules m r = Ok PNone.
Proof. intros H. unfold _generate_cli_adhoc_rules. now rewrite H. Qed.

Lemma adhoc_both (m r : option string) :
  Py.truthy (Py.of_option m) && Py.truthy (Py.of_option r) = true ->
  exists mp rp,
    m = Some mp /\ r = Some rp /\ mp <> "" /\ rp <> "" /\
    _generate_cli_adhoc_rules m r
    = (p <- re.compile mp ;; Ok (ruleset [rule p (PStr rp)]))%result.
Proof.
  intros H. unfold _generate_cli_adhoc_rules. rewrite H.
  destruct m as [mp|], r as [rp|]; simpl in H; try discriminate;
    try (rewrite andb_false_r in H; discriminate).
  apply andb_prop in H. destruct H as [Hm Hr].
  apply negb_true_iff in Hm, Hr. apply String.eqb_neq in Hm, Hr.
  exists mp, rp. repeat split; assumption.
Qed.

(** With rules from the command line, [main] opens no file. *)
Lemma main_adhoc_open_calls (w : World) (m r : option string) (args : list string) :
  Py.truthy (Py.of_option m) && Py.truthy (Py.of_option r) = true ->
  open_calls (fst (main w m r args start)) = [].
Proof.
  intros H. destruct (adhoc_both m r H) as (mp & rp & -> & -> & _ & _ & Hgen).
  unfold main. rewrite Hgen. apply andb_prop in H. destruct H as [Hm Hr].
  rewrite Hm. cbn [negb andb]. unfold bind at 1, ret at 1.
  unfold bind at 1, lift at 1.
  destruct (re.compile mp) as [p|e]; [|reflexivity].
  cbn [rbind]. unfold bind at 1, lift at 1.
  destruct (_get_config_filename w) as [config|e]; [|reflexivity].
  cbn [ruleset Py.truthy negb]. unfold bind at 1, ret at 1.
  unfold bind.
  pose proof (process_input_open_calls w (ruleset [rule p (PStr rp)]) args start) as Hp.
  unfold ruleset in Hp.
  destruct (_process_input w _ args start) as [q [[]|e]]; exact Hp.
Qed.

(** Without them, and unless the help text is asked for, [main] loads the
    configuration file that [_get_config_filename] names, and opens
    nothing else. *)
Lemma main_config (w : World) (m r : option string) (args : list string)
    (config : string) :
  Py.truthy (Py.of_option m) && Py.truthy (Py.of_option r) = false ->
  negb (Py.truthy (Py.of_option m)) && negb (Py.truthy (Py.of_option r))
    && match args with [] => true | _ => false end = false ->
  _get_config_filename w = Ok config ->
  main w m r args start
  = (sub_rules <- _parse_config w config ;;
     _ <- _process_input w sub_rules args ;;
     ctx_exit)%io start
  /\ open_calls (fst (main w m r args start)) = [config].
Proof.
  intros Hboth Hgate Hc.
  assert (Heq : main w m r args start
                = (sub_rules <- _parse_config w config ;;
                   _ <- _process_input w sub_rules args ;;
                   ctx_exit)%io start).
  { unfold main. rewrite Hgate, (adhoc_none m r Hboth), Hc. reflexivity. }
  split; [exact Heq|]. rewrite Heq. unfold bind at 1.
  rewrite parse_config_eq.
  match goal with |- context [match ?x with Ok _ => _ | Raise _ => _ end] =>
    destruct x as [R|e]
  end; [|reflexivity].
  unfold bind.
  pose proof (process_input_open_calls w R args (logged config start)) as Hp.
  destruct (_process_input w R args _) as [q [[]|e]]; exact Hp.
Qed.

(** When [_get_config_filename] raises, [main] ends there. *)
Lemma main_config_error (w : World) (m r : option string) (args : list string)
    (e : exn) :
  negb (Py.truthy (Py.of_option m)) && negb (Py.truthy (Py.of_option r))
    && match args with [] => true | _ => false end = false ->
  (forall e', _generate_cli_adhoc_rules m r <> Raise e') ->
  _get_config_filename w = Raise e ->
  main w m r args start = (start, Raise e).
Proof.
  intros Hgate Hgen Hc. unfold main. rewrite Hgate, Hc.
  unfold bind at 1, ret at 1. unfold bind at 1, lift at 1.
  destruct (_generate_cli_adhoc_rules m r) as [R|e']; [reflexivity|].
  now destruct (Hgen e').
Qed.

(** C5, as the program has it.  Rules are taken from the command line
    exactly when both the match pattern and the replacement are given and
    not empty: then the pattern is compiled into a rule set of one rule
    (an invalid pattern raises here) and no file is opened.  With only
    one of the two, or with neither of them and at least one positional
    argument, [main] loads the configuration file at the path that
    [_get_config_filename] returns.  With neither of them and no
    positional argument, [main] prints the help text and exits without
    opening any file. *)
Theorem adhoc_path_selection (w : World) (m r : option string) (args : list string) :
  let both := Py.truthy (Py.of_option m) && Py.truthy (Py.of_option r) in
  let neither :=
    negb (Py.truthy (Py.of_option m)) && negb (Py.truthy (Py.of_option r)) in
  (_generate_cli_adhoc_rules m r = Ok PNone <-> both = false)
  /\ (both = true ->
      (exists mp rp,
          m = Some mp /\ r = Some rp /\ mp <> "" /\ rp <> "" /\
          _generate_cli_adhoc_rules m r
          = (p <- re.compile mp ;; Ok (ruleset [rule p (PStr rp)]))%result)
      /\ open_calls (fst (main w m r args start)) = [])
  /\ (both = false -> neither = false \/ args <> [] ->
      forall config, _get_config_filename w = Ok config ->
      main w m r args start
      = (sub_rules <- _parse_config w config ;;
         _ <- _process_input w sub_rules args ;;
         ctx_exit)%io start
      /\ open_calls (fst (main w m r args start)) = [config])
  /\ (neither = true -> args = [] ->
      main w m r args start
      = ({| stdout := click.echoed (stdout_isatty w) (Some (get_help w));
            open_calls := [] |},
         Raise (Exit 0))).
Proof.
  cbv zeta. split; [|split; [|split]].
  - split.
    + intros Hgen.
      destruct (Py.truthy (Py.of_option m) && Py.truthy (Py.of_option r)) eqn:H;
        [|reflexivity].
      destruct (adhoc_both m r H) as (mp & rp & _ & _ & _ & _ & Heq).
      rewrite Heq in Hgen. destruct (re.compile mp); discriminate.
    + apply adhoc_none.
  - intros H. split; [exact (adhoc_both m r H) | exact (main_adhoc_open_calls w m r args H)].
  - intros Hboth Hgate config Hc. apply main_config; [exact Hboth| |exact Hc].
    destruct Hgate as [-> | Hargs]; [reflexivity|].
    destruct args; [congruence|]. apply andb_false_r.
  - intros Hn ->. unfold main. rewrite Hn. reflexivity.
Qed.

(** A replacement without a backslash is a valid template for every
    pattern. *)
Lemma plain_replacement_valid (p : re.Pattern) (repl : string) :
  has_backslash repl = false -> valid_rule (rule p (PStr repl)).
Proof.
  intros H. exists p, repl, (map re.TChar (list_ascii_of_string repl)).
  repeat split. exact (parse_template_plain _ repl H).
Qed.

(** ** Runs of the program *)

(** The rule [(\w+)@example\.com] with replacement [\1@redacted.com]. *)
Example end_to_end_redaction :
  main bare (Some "(\w+)@example\.com") (Some "\1@redacted.com")
       ["alice@example.com"] start
  = ({| stdout := ("alice@redacted.com" ++ nl)%string; open_calls := [] |},
     Raise (Exit 0)).
Proof. reflexivity. Qed.

(** With one ad-hoc value only, the configuration file is looked for. *)
Example partial_adhoc_loads_config :
  main bare (Some "a") None ["aaa"] start
  = ({| stdout := ""; open_calls := [globalfile] |}, Raise FileNotFoundError).
Proof. reflexivity. Qed.

(** Rules from the configuration file at the override path. *)
Example configured_run :
  main configured None None ["aaa"; "xyz"] start
  = ({| stdout := ("bbb" ++ nl ++ nl)%string; open_calls := ["/tmp/rules.yaml"] |},
     Raise (Exit 0)).
Proof. reflexivity. Qed.

(** Of two rules that both match, the earlier one is applied. *)
Example first_of_two_matching_rules :
  _run_subs (ruleset [rule_x; rule_a; rule_a_plus]) "aaa" = Ok (Some "bbb")
  /\ _run_subs (ruleset [rule_a_plus; rule_a]) "aaa" = Ok (Some "c").
Proof. split; reflexivity. Qed.

Lemma first_match_wins_witness :
  _run_subs (ruleset [rule_x; rule_a; rule_a_plus]) "aaa"
  = (repl <- Py.getitem rule_a "replace" ;;
     out <- Py.re_sub (pattern_of "a") repl "aaa" ;;
     Ok (Some out))%result
  /\ _run_subs (ruleset [rule_x; rule_a; rule_a_plus]) "aaa"
     = _run_subs (ruleset [rule_a]) "aaa".
Proof.
  apply (first_match_wins (ruleset [rule_x; rule_a; rule_a_plus])
           [rule_x] [rule_a_plus] rule_a (pattern_of "a") "aaa").
  - reflexivity.
  - constructor; [|constructor]. exists (pattern_of "x"). split; reflexivity.
  - reflexivity.
  - vm_compute. discriminate.
Defined.

Lemma no_match_returns_none_witness :
  _run_subs (ruleset [rule_x; rule_a]) "hello" = Ok None
  /\ _run_subs (ruleset [rule_x; rule_a]) "hello" <> Ok (Some "")
  /\ _run_subs (ruleset [rule_x; rule_a]) "hello" <> Ok (Some "hello")
  /\ forall e, _run_subs (ruleset [rule_x; rule_a]) "hello" <> Raise e.
Proof.
  apply (no_match_returns_none (ruleset [rule_x; rule_a]) [rule_x; rule_a] "hello").
  - reflexivity.
  - constructor; [|constructor; [|constructor]].
    + exists (pattern_of "x"). split; reflexivity.
    + exists (pattern_of "a"). split; reflexivity.
Defined.

Lemma no_match_prints_empty_line_witness :
  _process_input bare (ruleset [rule_x]) ["hello"; "world"] start
  = ({| stdout := (nl ++ nl)%string; open_calls := [] |}, Ok tt).
Proof.
  apply (no_match_prints_empty_line bare (ruleset [rule_x]) ["hello"; "world"]
           "world" start).
  - reflexivity.
  - constructor; [|constructor; [|constructor]]; reflexivity.
Defined.

Lemma empty_input_index_error_witness :
  (forall R q, _process_input bare R [] q = (q, Raise IndexError))
  /\ main bare (Some "a") (Some "b") [] start = (start, Raise IndexError).
Proof.
  apply (empty_input_index_error bare "a" "b" (literal "a") globalfile).
  - discriminate.
  - discriminate.
  - reflexivity.
  - reflexivity.
Defined.

Lemma run_subs_total_on_valid_rules_witness :
  (Forall (no_match "aaa") [rule_x; rule_a]
   /\ _run_subs (ruleset [rule_x; rule_a]) "aaa" = Ok None)
  \/ (exists pre r post p repl t,
         [rule_x; rule_a] = pre ++ r :: post /\ Forall (no_match "aaa") pre /\
         Py.getitem r "match" = Ok (PPattern p) /\
         re.match_ p "aaa" <> None /\
         Py.getitem r "replace" = Ok (PStr repl) /\
         re.parse_template (re.groups p) repl = Ok t /\
         _run_subs (ruleset [rule_x; rule_a]) "aaa"
         = Ok (Some (re.sub_loop p t 0 0 "aaa")) /\
         _run_subs (ruleset [rule_x; rule_a]) "aaa" = _run_subs (ruleset [r]) "aaa").
Proof.
  apply (run_subs_total_on_valid_rules (ruleset [rule_x; rule_a])
           [rule_x; rule_a] "aaa").
  - reflexivity.
  - constructor; [|constructor; [|constructor]].
    + exists (pattern_of "x"), "1", [re.TChar "1"]. repeat split.
    + exists (pattern_of "a"), "b", [re.TChar "b"]. repeat split.
Defined.

Lemma start_anchored_selection_witness :
  exists r p st u,
    In r [rule_a] /\ Py.getitem r "match" = Ok (PPattern p) /\
    re.match_ p "abc" = Some st /\
    "abc" = (u ++ re.rest st)%string /\ re.pos st = String.length u.
Proof.
  apply (proj1 start_anchored_selection (ruleset [rule_a]) [rule_a] "abc" "bbc");
    reflexivity.
Defined.

Lemma substitutes_all_occurrences_witness :
  exists out,
    _run_subs (ruleset [rule_x; rule_foo; rule_a]) "foo-foo" = Ok (Some out)
    /\ replaces_all (pattern_of "foo") (map re.TChar (list_ascii_of_string "bar"))
                    0 false "foo-foo" out
    /\ forall out',
         replaces_all (pattern_of "foo") (map re.TChar (list_ascii_of_string "bar"))
                      0 false "foo-foo" out' ->
         out' = out.
Proof.
  apply (proj1 substitutes_all_occurrences (ruleset [rule_x; rule_foo; rule_a])
           [rule_x] rule_foo [rule_a] (pattern_of "foo") "bar").
  - reflexivity.
  - constructor; [|constructor]. exists (pattern_of "x"). split; reflexivity.
  - reflexivity.
  - vm_compute. discriminate.
  - reflexivity.
  - reflexivity.
Defined.

Lemma adhoc_path_selection_witness :
  main bare (Some "a") None ["x"] start
  = (sub_rules <- _parse_config bare globalfile ;;
     _ <- _process_input bare sub_rules ["x"] ;;
     ctx_exit)%io start
  /\ open_calls (fst (main bare (Some "a") None ["x"] start)) = [globalfile].
Proof.
  destruct (adhoc_path_selection bare (Some "a") None ["x"]) as (_ & _ & H & _).
  apply (H eq_refl (or_introl eq_refl) globalfile). reflexivity.
Defined.

Lemma config_precedence_witness :
  _get_config_filename configured = Ok "/tmp/rules.yaml".
Proof.
  apply (proj1 (proj1 config_precedence configured "/home/u" true eq_refl eq_refl)
           "/tmp/rules.yaml");
    [reflexivity | discriminate].
Defined.

Lemma loader_fails_or_compiles_all_witness :
  snd (_parse_config bare globalfile start) = Raise FileNotFoundError
  /\ error_kind FileNotFoundError = Some ConfigNotFoundError.
Proof.
  apply (proj1 (loader_fails_or_compiles_all bare globalfile)). reflexivity.
Defined.

(** ** Where the program departs from the specification *)

(** With neither ad-hoc value and no positional argument, [main] prints
    the help text and exits: the configuration file, although present
    and well-formed, is not loaded. *)
Lemma help_gate_skips_config :
  _generate_cli_adhoc_rules None None = Ok PNone
  /\ _get_config_filename configured_home = Ok "/home/u/.sarlac.yaml"
  /\ is_file configured_home "/home/u/.sarlac.yaml" = Ok true
  /\ main configured_home None None [] start
     = ({| stdout := (usage ++ nl)%string; open_calls := [] |}, Raise (Exit 0))
  /\ ~ In "/home/u/.sarlac.yaml"
          (open_calls (fst (main configured_home None None [] start))).
Proof.
  repeat split. intros H. vm_compute in H. exact H.
Qed.

(** When pathlib cannot tell the home directory, [_get_config_filename]
    raises before it looks at the override: no path is returned,
    although [SARLAC_CONFIG] is set and names a file. *)
Lemma override_not_returned_without_home :
  environ homeless "SARLAC_CONFIG" = Some "/tmp/rules.yaml"
  /\ is_file homeless "/tmp/rules.yaml" = Ok true
  /\ _get_config_filename homeless = Raise RuntimeError
  /\ forall path, _get_config_filename homeless <> Ok path.
Proof.
  repeat split. intros path H. vm_compute in H. discriminate.
Qed.

(** There [main] ends with that error, on the ad-hoc path too, before
    any input is handled. *)
Example unknown_home_ends_run :
  main homeless (Some "a") (Some "b") ["aaa"] start = (start, Raise RuntimeError)
  /\ main homeless None (Some "b") ["aaa"] start = (start, Raise RuntimeError).
Proof. split; reflexivity. Qed.

(** An entry without a [replace] key does not make the loader fail: the
    document is loaded into a rule set whose rule has no replacement. *)
Lemma entry_without_replace_loads :
  Py.getitem (PDict [("match", PStr "a")]) "replace" = Raise (KeyError "replace")
  /\ Py.getitem no_replace_doc "substitutions"
     = Ok (PList [PDict [("match", PStr "a")]])
  /\ snd (_parse_config no_replace_world globalfile start)
     = Ok (ruleset [PDict [("match", PPattern (literal "a"))]])
  /\ forall e, snd (_parse_config no_replace_world globalfile start) <> Raise e.
Proof.
  repeat split. intros e H. vm_compute in H. discriminate.
Qed.

(** A rule whose pattern compiled can still make [_run_subs] raise: the
    replacement [\1] refers to a group that the pattern [a] does not
    have. *)
Lemma invalid_template_raises :
  _generate_cli_adhoc_rules (Some "a") (Some "\1")
  = Ok (ruleset [rule (literal "a") (PStr "\1")])
  /\ re.match_ (literal "a") "a" <> None
  /\ _run_subs (ruleset [rule (literal "a") (PStr "\1")]) "a" = Raise re_error.
Proof.
  repeat split. vm_compute. discriminate.
Qed.

(** An input that no rule matches does produce output: an empty line. *)
Lemma no_match_output_not_empty :
  _run_subs (ruleset []) "hello" = Ok None
  /\ _process_input bare (ruleset []) ["hello"] start
     = ({| stdout := nl; open_calls := [] |}, Ok tt)
  /\ stdout (fst (_process_input bare (ruleset []) ["hello"] start)) <> "".
Proof.
  repeat split. vm_compute. discriminate.
Qed.

(** * Further properties of the program *)

(** ** The input loop *)

Lemma for_each_map {A B : Type} (f : A -> B) (body : B -> IO unit) (l : list A) :
  forall q, for_each l (fun x => body (f x)) q = for_each (map f l) body q.
Proof.
  induction l as [|a l IH]; intros q; [reflexivity|].
  simpl. unfold bind. destruct (body (f a) q) as [q' [[]|e]]; [apply IH | reflexivity].
Qed.

(** [_process_input] is one loop over the strings it hands to
    [_run_subs]. *)
Lemma process_input_loop (w : World) (R : pyval) (args : list string) (a : string)
    (q : Proc) :
  last_arg args = Ok a ->
  _process_input w R args q = for_each (input_strings w args) (echo_result w R) q.
Proof.
  intros Ha. unfold _process_input, input_strings. rewrite Ha.
  unfold bind at 1, lift at 1. destruct (String.eqb a "-").
  - exact (for_each_map Py.rstrip (echo_result w R) (stdin w) q).
  - reflexivity.
Qed.


Lemma for_each_error (w : World) (R : pyval) (pre post : list string) (s : string)
    (outs : list (option string)) (e : exn) :
  Forall2 (fun x o => _run_subs R x = Ok o) pre outs ->
  _run_subs R s = Raise e ->
  forall q,
    for_each (pre ++ s :: post) (echo_result w R) q
    = ({| stdout := (stdout q ++ lines_of (stdout_isatty w) outs)%string;
          open_calls := open_calls q |}, Raise e).
Proof.
  intros Hpre Hs. induction Hpre as [|x o pre outs Hx _ IH]; intros q.
  - cbn [app for_each]. unfold bind at 1, echo_result at 1. unfold bind at 1, lift.
    rewrite Hs. cbn [lines_of]. rewrite append_nil_r. now destruct q.
  - cbn [app for_each]. unfold bind at 1, echo_result at 1. unfold bind at 1, lift.
    rewrite Hx. unfold click_echo at 1. rewrite IH.
    cbn [stdout open_calls lines_of].
    now rewrite !append_assoc.
Qed.



(** On a terminal the colour sequences are written; elsewhere they are
    removed. *)
Example coloured_output :
  stdout (fst (_process_input terminal (ruleset [rule_red]) ["a-a"] start))
  = (red ++ "a-" ++ red ++ "a" ++ nl)%string
  /\ stdout (fst (_process_input bare (ruleset [rule_red]) ["a-a"] start))
     = ("a-a" ++ nl)%string.
Proof. split; reflexivity. Qed.

(** X2.  When [_run_subs] raises on an input, [_process_input] stops
    there with that exception: what [click.echo] makes of the results
    for the inputs before it has been written, and nothing is written
    for it or for the inputs after it. *)
Theorem process_input_stops_at_error (w : World) (R : pyval) (args : list string)
    (a : string) (pre post : list string) (s : string)
    (outs : list (option string)) (e : exn) (q : Proc) :
  last_arg args = Ok a ->
  input_strings w args = pre ++ s :: post ->
  Forall2 (fun x o => _run_subs R x = Ok o) pre outs ->
  _run_subs R s = Raise e ->
  _process_input w R args q
  = ({| stdout := (stdout q ++ lines_of (stdout_isatty w) outs)%string;
        open_calls := open_calls q |}, Raise e).
Proof.
  intros Ha Hin Hpre Hs. rewrite (process_input_loop w R args a q Ha), Hin.
  exact (for_each_error w R pre post s outs e Hpre Hs q).
Qed.

Lemma process_input_stops_at_error_witness :
  _process_input bare (ruleset [rule_red; rule_bad_template]) ["aaa"; "bbb"; "aaa"] start
  = ({| stdout := (stdout start
                   ++ lines_of (stdout_isatty bare)
                        [Some (red ++ "a" ++ red ++ "a" ++ red ++ "a")])%string;
        open_calls := open_calls start |}, Raise re_error).
Proof.
  apply (process_input_stops_at_error bare (ruleset [rule_red; rule_bad_template])
           ["aaa"; "bbb"; "aaa"] "aaa" ["aaa"] ["aaa"] "bbb").
  - reflexivity.
  - reflexivity.
  - repeat constructor.
  - reflexivity.
Defined.

Lemma last_arg_snoc (args : list string) (a : string) :
  last_arg (args ++ [a]) = Ok a.
Proof. unfold last_arg. now rewrite rev_unit. Qed.

(** X3.  When the last positional argument is a dash, the positional
    arguments before it are ignored: the lines of standard input are the
    inputs. *)
Theorem dash_ignores_other_arguments (w : World) (R : pyval) (args : list string)
    (q : Proc) :
  _process_input w R (args ++ ["-"]) q = _process_input w R ["-"] q
  /\ input_strings w (args ++ ["-"]) = map Py.rstrip (stdin w).
Proof.
  split.
  - rewrite (process_input_loop w R (args ++ ["-"]) "-" q (last_arg_snoc args "-")).
    rewrite (process_input_loop w R ["-"] "-" q eq_refl).
    unfold input_strings. now rewrite last_arg_snoc.
  - unfold input_strings. now rewrite last_arg_snoc.
Qed.

(** X4.  Unless the last positional argument is a dash, standard input
    is not read: the arguments themselves are the inputs, a dash among
    them included, and the run is the same whatever standard input
    holds, on any two machines whose output is of the same kind. *)
Theorem stdin_not_read_without_dash (w w' : World) (R : pyval) (args : list string)
    (a : string) (q : Proc) :
  last_arg args = Ok a -> a <> "-" ->
  stdout_isatty w = stdout_isatty w' ->
  input_strings w args = args
  /\ _process_input w R args q = _process_input w' R args q.
Proof.
  intros Ha Hne Htty. apply String.eqb_neq in Hne.
  assert (Hin : forall v, input_strings v args = args).
  { intros v. unfold input_strings. now rewrite Ha, Hne. }
  split; [apply Hin|].
  rewrite (process_input_loop w R args a q Ha),
          (process_input_loop w' R args a q Ha), !Hin.
  unfold echo_result, click_echo. now rewrite Htty.
Qed.

Lemma stdin_not_read_without_dash_witness :
  input_strings bare ["-"; "aaa"] = ["-"; "aaa"]
  /\ _process_input bare (ruleset [rule_a]) ["-"; "aaa"] start
     = _process_input piped (ruleset [rule_a]) ["-"; "aaa"] start.
Proof.
  apply (stdin_not_read_without_dash bare piped (ruleset [rule_a]) ["-"; "aaa"] "aaa").
  - reflexivity.
  - discriminate.
  - reflexivity.
Defined.

(** ** Trailing white space of piped lines *)

Lemma rstrip_all_space (ws : string) :
  all_space ws = true -> Py.rstrip ws = "".
Proof.
  induction ws as [|c ws IH]; simpl; [reflexivity|].
  intros H. apply andb_prop in H. destruct H as [Hc Hws].
  now rewrite (IH Hws), Hc.
Qed.

Lemma rstrip_append_space (s ws : string) :
  all_space ws = true -> Py.rstrip (s ++ ws) = Py.rstrip s.
Proof.
  intros H. induction s as [|c s IH]; simpl.
  - exact (rstrip_all_space ws H).
  - now rewrite IH.
Qed.

(** X5.  In the piped mode the rules never see the white space at the end
    of a line: adding white space, such as the line terminator, to the
    end of the lines of standard input changes nothing in the run, on
    any two machines whose output is of the same kind. *)
Theorem piped_trailing_space_ignored (w w' : World) (R : pyval)
    (args : list string) (q : Proc) :
  last_arg args = Ok "-" ->
  stdout_isatty w = stdout_isatty w' ->
  Forall2 (fun l l' => exists ws, all_space ws = true /\ l' = (l ++ ws)%string)
          (stdin w) (stdin w') ->
  _process_input w' R args q = _process_input w R args q.
Proof.
  intros Ha Htty H.
  rewrite (process_input_loop w R args "-" q Ha),
          (process_input_loop w' R args "-" q Ha).
  unfold input_strings. rewrite Ha. cbn [String.eqb Ascii.eqb Bool.eqb].
  unfold echo_result, click_echo. rewrite Htty.
  replace (map Py.rstrip (stdin w')) with (map Py.rstrip (stdin w)); [reflexivity|].
  induction H as [|l l' ls ls' [ws [Hws ->]] _ IH]; [reflexivity|].
  cbn [map]. now rewrite IH, (rstrip_append_space l ws Hws).
Qed.

Lemma piped_trailing_space_ignored_witness :
  _process_input piped (ruleset [rule_a]) ["-"] start
  = _process_input piped_stripped (ruleset [rule_a]) ["-"] start.
Proof.
  apply (piped_trailing_space_ignored piped_stripped piped (ruleset [rule_a]) ["-"]).
  - reflexivity.
  - reflexivity.
  - constructor; [|constructor; [|constructor]].
    + exists nl. split; reflexivity.
    + exists ("  " ++ nl)%string. split; reflexivity.
Defined.

(** ** Rules whose replacement cannot be used *)

(** X6.  A rule whose [replace] entry is missing or is not a string does
    no harm until it is selected: on an input that its pattern does not
    match it is passed over like any other rule, and on the first input
    for which it is the first matching rule [_run_subs] raises, with the
    error of the lookup ([KeyError]) or [TypeError]. *)
Theorem unusable_replace_raises_when_selected (R : pyval) (pre post : list pyval)
    (r : pyval) (p : re.Pattern) (s : string) :
  Py.getitem R "substitutions" = Ok (PList (pre ++ r :: post)) ->
  Forall (no_match s) pre ->
  Py.getitem r "match" = Ok (PPattern p) ->
  (re.match_ p s = None -> _run_subs R s = run_rules post s)
  /\ (re.match_ p s <> None ->
      (forall e, Py.getitem r "replace" = Raise e -> _run_subs R s = Raise e)
      /\ (forall v, Py.getitem r "replace" = Ok v ->
                    (forall t, v <> PStr t) -> _run_subs R s = Raise TypeError)).
Proof.
  intros HR Hpre Hp.
  rewrite (run_subs_rules R _ s HR), (run_rules_skip pre (r :: post) s Hpre).
  split.
  - intros Hm. cbn [run_rules]. rewrite Hp. cbn [rbind]. now rewrite Hm.
  - intros Hm. rewrite (run_rules_first r post p s Hp Hm). split.
    + intros e ->. reflexivity.
    + intros v -> Hv. cbn [rbind]. destruct v; try reflexivity.
      now destruct (Hv s0).
Qed.

Lemma unusable_replace_raises_when_selected_witness :
  (re.match_ (pattern_of "b") "bcd" = None ->
   _run_subs (ruleset [rule_a; rule_no_replace; rule_x]) "bcd"
   = run_rules [rule_x] "bcd")
  /\ (re.match_ (pattern_of "b") "bcd" <> None ->
      (forall e, Py.getitem rule_no_replace "replace" = Raise e ->
                 _run_subs (ruleset [rule_a; rule_no_replace; rule_x]) "bcd" = Raise e)
      /\ (forall v, Py.getitem rule_no_replace "replace" = Ok v ->
                    (forall t, v <> PStr t) ->
                    _run_subs (ruleset [rule_a; rule_no_replace; rule_x]) "bcd"
                    = Raise TypeError)).
Proof.
  apply (unusable_replace_raises_when_selected
           (ruleset [rule_a; rule_no_replace; rule_x]) [rule_a] [rule_x]
           rule_no_replace (pattern_of "b") "bcd").
  - reflexivity.
  - constructor; [|constructor]. exists (pattern_of "a"). split; reflexivity.
  - reflexivity.
Defined.

(** ** What the configuration path depends on *)

(** X7.  [_get_config_filename] looks at nothing but the variable
    [SARLAC_CONFIG], what the home directory is, and whether the
    candidate in the home directory is a file: two machines that agree
    on these get the same result, the same path or the same error,
    whatever else their file systems hold, and a path that is returned
    is always one of the three candidates. *)
Theorem config_filename_reads (w w' : World) :
  environ w "SARLAC_CONFIG" = environ w' "SARLAC_CONFIG" ->
  home w = home w' ->
  (forall h, Path_home w = Ok h ->
             is_file w (home_candidate h) = is_file w' (home_candidate h)) ->
  _get_config_filename w = _get_config_filename w'
  /\ (forall path,
         _get_config_filename w = Ok path ->
         environ w "SARLAC_CONFIG" = Some path
         \/ homefile w = Ok path
         \/ path = globalfile).
Proof.
  intros He Hh Hf.
  assert (Hhome : Path_home w' = Path_home w).
  { unfold Path_home. now rewrite Hh. }
  split.
  - unfold _get_config_filename, homefile. rewrite <- He, Hhome.
    destruct (Path_home w) as [h|e]; [|reflexivity].
    cbn [rbind]. now rewrite (Hf h eq_refl).
  - intros path. unfold _get_config_filename, homefile.
    destruct (Path_home w) as [h|e]; [|discriminate]. cbn [rbind].
    destruct (is_file w (home_candidate h)) as [found|e]; [|discriminate].
    cbn [rbind].
    destruct (environ w "SARLAC_CONFIG") as [e|];
      [destruct (Py.truthy (PStr e))|]; destruct found;
      intros H; injection H as <-; auto.
Qed.

Lemma config_filename_reads_witness :
  _get_config_filename bare = _get_config_filename no_replace_world
  /\ (forall path,
         _get_config_filename bare = Ok path ->
         environ bare "SARLAC_CONFIG" = Some path
         \/ homefile bare = Ok path
         \/ path = globalfile).
Proof.
  apply (config_filename_reads bare no_replace_world); [reflexivity | reflexivity|].
  intros h H. injection H as <-. reflexivity.
Defined.

(** ** Failing before any input is handled *)

(** X8.  An invalid ad-hoc pattern ends [main] at once with the error of
    [re.compile]: nothing has been written, no file has been opened and
    no input has been handled, whatever the arguments and the machine. *)
Theorem invalid_adhoc_pattern_aborts (w : World) (m r : string)
    (args : list string) (e : exn) :
  m <> "" -> r <> "" -> re.compile m = Raise e ->
  main w (Some m) (Some r) args start = (start, Raise e).
Proof.
  intros Hm Hr Hc. apply String.eqb_neq in Hm, Hr.
  unfold main, _generate_cli_adhoc_rules.
  cbn [Py.of_option Py.truthy]. rewrite Hm, Hr. cbn [negb andb].
  rewrite Hc. reflexivity.
Qed.

Lemma invalid_adhoc_pattern_aborts_witness :
  main configured (Some "(a") (Some "b") ["aaa"] start = (start, Raise re_error).
Proof.
  apply (invalid_adhoc_pattern_aborts configured "(a" "b" ["aaa"] re_error).
  - discriminate.
  - discriminate.
  - reflexivity.
Defined.

(** X9.  When the rules come from the configuration file, at the path
    that [_get_config_filename] has returned, and loading it fails,
    [main] ends with the loader's error after the one call of [open]:
    nothing has been written and no input has been handled. *)
Theorem load_failure_aborts (w : World) (m r : option string)
    (args : list string) (config : string) (e : exn) :
  Py.truthy (Py.of_option m) && Py.truthy (Py.of_option r) = false ->
  negb (Py.truthy (Py.of_option m)) && negb (Py.truthy (Py.of_option r))
    && match args with [] => true | _ => false end = false ->
  _get_config_filename w = Ok config ->
  snd (_parse_config w config start) = Raise e ->
  main w m r args start = (logged config start, Raise e).
Proof.
  intros Hboth Hgate Hc He.
  rewrite (proj1 (main_config w m r args config Hboth Hgate Hc)).
  unfold bind at 1. rewrite parse_config_eq in *. cbn [snd] in He.
  now rewrite He.
Qed.

Lemma load_failure_aborts_witness :
  main bare None (Some "b") ["aaa"] start
  = (logged globalfile start, Raise FileNotFoundError).
Proof.
  apply (load_failure_aborts bare None (Some "b") ["aaa"] globalfile
           FileNotFoundError);
    reflexivity.
Defined.

(** ** A whole run with an ad-hoc rule *)





(** ** What the loader keeps *)

Lemma dict_get_set_other (d : list (string * pyval)) (k k' : string) (v : pyval) :
  k <> k' -> Py.dict_get (Py.dict_set d k' v) k = Py.dict_get d k.
Proof.
  intros Hk. apply not_eq_sym in Hk. apply String.eqb_neq in Hk.
  induction d as [|[k0 v0] d IH]; simpl.
  - now rewrite Hk.
  - destruct (String.eqb k0 k') eqn:H0; simpl; [|now rewrite IH].
    apply String.eqb_eq in H0. subst k0. now rewrite Hk.
Qed.

Lemma dict_set_same (d : list (string * pyval)) (k : string) (v : pyval) :
  Py.dict_get d k = Some v -> Py.dict_set d k v = d.
Proof.
  induction d as [|[k0 v0] d IH]; simpl; [discriminate|].
  destruct (String.eqb k0 k); intros H.
  - now injection H as ->.
  - now rewrite (IH H).
Qed.

Lemma setitem_other (obj obj' : pyval) (k k' : string) (v : pyval) :
  Py.setitem obj k' v = Ok obj' -> k <> k' ->
  Py.getitem obj' k = Py.getitem obj k.
Proof.
  destruct obj; simpl; try discriminate. intros H Hk. injection H as <-.
  simpl. now rewrite (dict_get_set_other d k k' v Hk).
Qed.

Lemma setitem_same (obj : pyval) (k : string) (v : pyval) :
  Py.getitem obj k = Ok v -> Py.setitem obj k v = Ok obj.
Proof.
  destruct obj; simpl; try discriminate.
  destruct (Py.dict_get d k) as [v'|] eqn:Hg; [|discriminate].
  intros H. injection H as ->. now rewrite (dict_set_same d k v Hg).
Qed.

Lemma compile_rule_other_keys (r r' : pyval) (k : string) :
  compile_rule r = Ok r' -> k <> "match" ->
  Py.getitem r' k = Py.getitem r k.
Proof.
  unfold compile_rule. destruct (Py.getitem r "match") as [m|e]; [|discriminate].
  cbn [rbind]. destruct (Py.re_compile m) as [p|e]; [|discriminate].
  cbn [rbind]. intros H Hk. exact (setitem_other r r' k "match" _ H Hk).
Qed.

(** X11.  For a document without aliases, a successful load keeps the
    document as it is except for the
    patterns: the rule set has as many rules as the document has
    entries, in the same order, every key of an entry other than
    ["match"] keeps its value (so a [replace] of any type passes through
    unchecked), ["match"] holds the compiled pattern, and the other
    top-level keys of the document are unchanged. *)
Theorem loader_preserves_entries (w : World) (path text : string)
    (config R : pyval) (rules : list pyval) :
  read_file w path = Ok text ->
  yaml_safe_load w text = Ok config ->
  Py.getitem config "substitutions" = Ok (PList rules) ->
  snd (_parse_config w path start) = Ok R ->
  exists rules',
    Py.getitem R "substitutions" = Ok (PList rules')
    /\ length rules' = length rules
    /\ Forall2 (fun r r' =>
                  (forall k, k <> "match" -> Py.getitem r' k = Py.getitem r k)
                  /\ exists m p,
                       Py.getitem r "match" = Ok m /\ Py.re_compile m = Ok p
                       /\ Py.getitem r' "match" = Ok (PPattern p))
               rules rules'
    /\ (forall k, k <> "substitutions" -> Py.getitem R k = Py.getitem config k).
Proof.
  intros Hread Hyaml Hsubs. rewrite parse_config_eq. cbn [snd].
  rewrite Hread. cbn [rbind]. rewrite Hyaml. cbn [rbind]. rewrite Hsubs.
  cbn [rbind Py.iter].
  destruct (mapM compile_rule rules) as [rules'|e] eqn:Hmap; [|discriminate].
  cbn [rbind]. intros HR. exists rules'.
  apply mapM_Forall2 in Hmap. split; [|split; [|split]].
  - exact (getitem_setitem _ _ _ _ HR).
  - symmetry. exact (Forall2_length Hmap).
  - eapply Forall2_impl; [|exact Hmap]. intros r r' Hc. split.
    + intros k Hk. exact (compile_rule_other_keys r r' k Hc Hk).
    + unfold compile_rule in Hc.
      destruct (Py.getitem r "match") as [m|e]; [|discriminate].
      cbn [rbind] in Hc. destruct (Py.re_compile m) as [p|e] eqn:Hp; [|discriminate].
      cbn [rbind] in Hc. exists m, p. repeat split; [exact Hp|].
      exact (getitem_setitem _ _ _ _ Hc).
  - intros k Hk. exact (setitem_other config R k "substitutions" _ HR Hk).
Qed.

Lemma loader_preserves_entries_witness :
  exists rules',
    Py.getitem two_rule_loaded "substitutions" = Ok (PList rules')
    /\ length rules' = length two_rule_entries
    /\ Forall2 (fun r r' =>
                  (forall k, k <> "match" -> Py.getitem r' k = Py.getitem r k)
                  /\ exists m p,
                       Py.getitem r "match" = Ok m /\ Py.re_compile m = Ok p
                       /\ Py.getitem r' "match" = Ok (PPattern p))
               two_rule_entries rules'
    /\ (forall k, k <> "substitutions" ->
          Py.getitem two_rule_loaded k = Py.getitem two_rule_doc k).
Proof.
  apply (loader_preserves_entries two_rule_world globalfile "..." two_rule_doc
           two_rule_loaded two_rule_entries); reflexivity.
Defined.

(** X12.  The values of [substitutions] that are not a list of entries:
    an empty list, an empty string and an empty mapping load without
    error, the document is returned as it is, and the rule set matches
    no input; [None], a number, a boolean, a string that is not empty and
    a mapping that is not empty make the loader raise [TypeError]. *)
Theorem substitutions_edge_values (w : World) (path text : string)
    (config subs : pyval) :
  read_file w path = Ok text ->
  yaml_safe_load w text = Ok config ->
  Py.getitem config "substitutions" = Ok subs ->
  (subs = PList [] \/ subs = PStr "" \/ subs = PDict [] ->
   snd (_parse_config w path start) = Ok config
   /\ forall s, _run_subs config s = Ok None)
  /\ (subs = PNone \/ (exists b, subs = PBool b) \/ (exists z, subs = PInt z)
      \/ (exists c s', subs = PStr (String c s'))
      \/ (exists kv d, subs = PDict (kv :: d)) ->
      snd (_parse_config w path start) = Raise TypeError).
Proof.
  intros Hread Hyaml Hsubs. rewrite parse_config_eq. cbn [snd].
  rewrite Hread. cbn [rbind]. rewrite Hyaml. cbn [rbind]. rewrite Hsubs.
  cbn [rbind]. split.
  - intros [-> | [-> | ->]]; (split; [|intros s; unfold _run_subs; now rewrite Hsubs]).
    + cbn. exact (setitem_same config "substitutions" _ Hsubs).
    + reflexivity.
    + reflexivity.
  - intros [-> | [[b ->] | [[z ->] | [(c & s' & ->) | (kv & d & ->)]]]];
      reflexivity.
Qed.

Lemma substitutions_edge_values_witness :
  (PList [] = PList [] \/ PList [] = PStr "" \/ PList [] = PDict [] ->
   snd (_parse_config empty_doc_world globalfile start) = Ok empty_doc
   /\ forall s, _run_subs empty_doc s = Ok None)
  /\ (PList [] = PNone \/ (exists b, PList [] = PBool b)
      \/ (exists z, PList [] = PInt z)
      \/ (exists c s', PList [] = PStr (String c s'))
      \/ (exists kv d, PList [] = PDict (kv :: d)) ->
      snd (_parse_config empty_doc_world globalfile start) = Raise TypeError).
Proof.
  apply (substitutions_edge_values empty_doc_world globalfile "..." empty_doc
           (PList [])); reflexivity.
Defined.

(** X13.  Compiling an entry that is already compiled leaves it as it
    is, because [re.compile] returns a compiled pattern unchanged: an
    entry that the loop meets a second time does not fail. *)
Theorem compile_rule_idempotent (r r' : pyval) :
  compile_rule r = Ok r' -> compile_rule r' = Ok r'.
Proof.
  intros H. unfold compile_rule in H.
  destruct (Py.getitem r "match") as [m|e]; [|discriminate].
  cbn [rbind] in H. destruct (Py.re_compile m) as [p|e]; [|discriminate].
  cbn [rbind] in H. pose proof (getitem_setitem _ _ _ _ H) as Hg.
  unfold compile_rule. rewrite Hg. cbn [rbind Py.re_compile].
  exact (setitem_same r' "match" _ Hg).
Qed.

Lemma compile_rule_idempotent_witness :
  compile_rule (PDict [("match", PPattern (pattern_of "a+")); ("replace", PStr "b")])
  = Ok (PDict [("match", PPattern (pattern_of "a+")); ("replace", PStr "b")]).
Proof.
  apply (compile_rule_idempotent
           (PDict [("match", PStr "a+"); ("replace", PStr "b")])).
  reflexivity.
Defined.

(** ** The errors of the [re] calls *)

Ltac split_cases :=
  repeat match goal with
         | |- context [if ?b then _ else _] => destruct b
         | |- context [match ?x with _ => _ end] => destruct x
         end.

Ltac close_error :=
  intros; try discriminate;
  match goal with
  | H : Raise _ = Raise _ |- _ => injection H as <-; auto
  end.

Lemma quantify_errors (mk : bool -> re.regex -> re.regex) (ps : re.pstate) (e : exn) :
  re.quantify mk ps = Raise e -> e = re_error \/ e = Unsupported.
Proof. unfold re.quantify. split_cases; close_error. Qed.

Lemma step_errors (c : ascii) (ps : re.pstate) (e : exn) :
  re.step c ps = Raise e -> e = re_error \/ e = Unsupported.
Proof.
  unfold re.step, re.close_group.
  repeat match goal with
         | |- context [if ?b then _ else _] => destruct b
         end;
    try apply quantify_errors; split_cases; try apply quantify_errors; close_error.
Qed.

Lemma escape_errors (c : ascii) (e : exn) :
  re.escape c = Raise e -> e = re_error \/ e = Unsupported.
Proof. unfold re.escape. split_cases; close_error. Qed.

Lemma parse_errors_bounded (n : nat) :
  forall s, String.length s <= n ->
  forall ps e, re.parse s ps = Raise e -> e = re_error \/ e = Unsupported.
Proof.
  induction n as [|n IH]; intros s Hn ps e.
  - destruct s; [|simpl in Hn; lia]. cbn [re.parse].
    destruct (re.opened ps); close_error.
  - destruct s as [|c s]; cbn [re.parse].
    + destruct (re.opened ps); close_error.
    + simpl in Hn. destruct (Ascii.eqb c backslash).
      * destruct s as [|x s2]; [close_error|].
        destruct (re.escape x) as [a|e'] eqn:He; cbn [rbind].
        -- apply IH. simpl in Hn. lia.
        -- intros H. injection H as <-. exact (escape_errors x e' He).
      * destruct (Ascii.eqb c "(").
        -- match goal with
           | |- context [if ?b then _ else _] => destruct b
           end; [close_error | apply IH; lia].
        -- destruct (re.step c ps) as [ps'|e'] eqn:Hs; cbn [rbind];
             [apply IH; lia|].
           intros H. injection H as <-. exact (step_errors c ps e' Hs).
Qed.

(** [re.compile] raises nothing but [re.error]. *)
Lemma compile_errors (s : string) (e : exn) :
  re.compile s = Raise e -> e = re_error \/ e = Unsupported.
Proof. exact (parse_errors_bounded (String.length s) s (le_n _) re.init e). Qed.

Lemma parse_template_errors_bounded (g n : nat) :
  forall s, String.length s <= n ->
  forall e, re.parse_template g s = Raise e -> e = re_error \/ e = Unsupported.
Proof.
  induction n as [|n IH]; intros s Hn e.
  - destruct s; [discriminate | simpl in Hn; lia].
  - destruct s as [|c s]; [discriminate|]. cbn [re.parse_template].
    simpl in Hn.
    assert (Hrec : forall (s' : string) (f : list re.titem -> list re.titem),
               String.length s' <= n ->
               (t <- re.parse_template g s' ;; Ok (f t))%result = Raise e ->
               e = re_error \/ e = Unsupported).
    { intros s' f Hs'. destruct (re.parse_template g s') as [t|e'] eqn:Ht;
        cbn [rbind]; [discriminate|].
      intros H. injection H as <-. exact (IH s' Hs' e' Ht). }
    destruct (Ascii.eqb c backslash).
    + destruct s as [|x s2]; [close_error|]. simpl in Hn.
      destruct (is_digit x).
      * destruct (Ascii.eqb x "0" || re.starts_with_digit s2); [close_error|].
        destruct (Nat.ltb g (digit_value x)); [close_error|].
        apply (Hrec s2 (fun t => re.TGroup (digit_value x) :: t)). lia.
      * destruct (re.template_escape x) as [c'|].
        -- apply (Hrec s2 (fun t => re.TChar c' :: t)). lia.
        -- destruct (Ascii.eqb x "g"); [close_error|].
           destruct (is_ascii_letter x); [close_error|].
           apply (Hrec s2 (fun t => re.TChar backslash :: re.TChar x :: t)). lia.
    + apply (Hrec s (fun t => re.TChar c :: t)). lia.
Qed.

(** [re.sub] with a compiled pattern and a string replacement raises
    nothing but [re.error], and the rest of [re.sub] only [TypeError]. *)
Lemma re_sub_errors (p : re.Pattern) (repl : pyval) (s : string) (e : exn) :
  Py.re_sub p repl s = Raise e ->
  e = re_error \/ e = Unsupported \/ e = TypeError.
Proof.
  destruct repl; cbn [Py.re_sub]; try (intros H; injection H as <-; auto).
  unfold re.sub. destruct (re.parse_template (re.groups p) s0) as [t|e'] eqn:Ht;
    cbn [rbind]; [discriminate|].
  intros H. injection H as <-.
  destruct (parse_template_errors_bounded _ _ s0 (le_n _) e' Ht); auto.
Qed.

Lemma re_compile_errors (obj : pyval) (e : exn) :
  Py.re_compile obj = Raise e ->
  e = re_error \/ e = Unsupported \/ e = TypeError.
Proof.
  destruct obj; cbn [Py.re_compile]; try (intros H; injection H as <-; auto);
    try discriminate.
  intros H. destruct (compile_errors s e H); auto.
Qed.

Lemma getitem_errors (obj : pyval) (key : string) (e : exn) :
  Py.getitem obj key = Raise e -> e = KeyError key \/ e = TypeError.
Proof.
  destruct obj; simpl; intros H; try (injection H as <-; auto).
  destruct (Py.dict_get d key); [discriminate | injection H as <-; auto].
Qed.

(** ** Errors when the rules are applied *)




(** ** How a run ends *)

Lemma main_help (w : World) (m r : option string) (args : list string) :
  negb (Py.truthy (Py.of_option m)) && negb (Py.truthy (Py.of_option r))
    && match args with [] => true | _ => false end = true ->
  main w m r args start
  = ({| stdout := click.echoed (stdout_isatty w) (Some (get_help w));
        open_calls := [] |}, Raise (Exit 0)).
Proof. intros H. unfold main. rewrite H. reflexivity. Qed.

(** X15.  Whatever the arguments and the machine, [main] calls [open] at
    most once, and only on the path that [_get_config_filename] has
    returned. *)
Theorem main_opens_at_most_config (w : World) (m r : option string)
    (args : list string) :
  open_calls (fst (main w m r args start)) = []
  \/ exists config,
       _get_config_filename w = Ok config
       /\ open_calls (fst (main w m r args start)) = [config].
Proof.
  destruct (Py.truthy (Py.of_option m) && Py.truthy (Py.of_option r)) eqn:Hboth.
  - left. exact (main_adhoc_open_calls w m r args Hboth).
  - destruct (negb (Py.truthy (Py.of_option m))
              && negb (Py.truthy (Py.of_option r))
              && match args with [] => true | _ => false end) eqn:Hgate.
    + left. now rewrite (main_help w m r args Hgate).
    + destruct (_get_config_filename w) as [config|e] eqn:Hc.
      * right. exists config. split; [reflexivity|].
        exact (proj2 (main_config w m r args config Hboth Hgate Hc)).
      * left. rewrite (main_config_error w m r args e Hgate); [reflexivity| |exact Hc].
        intros e'. now rewrite (adhoc_none m r Hboth).
Qed.

Lemma no_exit_ok {A : Type} (a : A) : no_exit (Ok a).
Proof. intros e H. discriminate. Qed.

Lemma no_exit_bind {A B : Type} (c : result A) (k : A -> result B) :
  no_exit c -> (forall a, no_exit (k a)) -> no_exit (rbind c k).
Proof.
  intros Hc Hk e. destruct c as [a|e0]; cbn [rbind].
  - apply Hk.
  - intros H. injection H as <-. now apply Hc.
Qed.

Lemma no_exit_of_errors {A : Type} (c : result A) :
  (forall e, c = Raise e ->
             e = re_error \/ e = Unsupported \/ e = TypeError
             \/ (exists k, e = KeyError k) \/ e = AttributeError
             \/ e = IndexError) ->
  no_exit c.
Proof.
  intros H e He.
  destruct (H e He) as [-> | [-> | [-> | [[k ->] | [-> | ->]]]]]; reflexivity.
Qed.

Lemma no_exit_get_config_filename (w : World) : no_exit (_get_config_filename w).
Proof.
  unfold _get_config_filename, homefile, Path_home, is_file. intros e.
  destruct (home w) as [|c h]; cbn [rbind];
    try destruct (Ascii.eqb c "~"); cbn [rbind];
    try (intros H; injection H as <-; reflexivity);
    match goal with
    | |- context [fs w ?x] => destruct (fs w x) as [[| |]|]
    end; cbn [rbind]; intros H; try discriminate; now injection H as <-.
Qed.

Lemma no_exit_getitem (obj : pyval) (key : string) : no_exit (Py.getitem obj key).
Proof.
  apply no_exit_of_errors. intros e H.
  destruct (getitem_errors obj key e H) as [-> | ->]; eauto 6.
Qed.

Lemma no_exit_re_sub (p : re.Pattern) (repl : pyval) (s : string) :
  no_exit (Py.re_sub p repl s).
Proof.
  apply no_exit_of_errors. intros e H.
  destruct (re_sub_errors p repl s e H) as [-> | [-> | ->]]; auto.
Qed.

Lemma no_exit_re_compile (obj : pyval) : no_exit (Py.re_compile obj).
Proof.
  apply no_exit_of_errors. intros e H.
  destruct (re_compile_errors obj e H) as [-> | [-> | ->]]; auto.
Qed.

Lemma no_exit_run_rules (rules : list pyval) (s : string) :
  no_exit (run_rules rules s).
Proof.
  induction rules as [|r rules IH]; cbn [run_rules]; [apply no_exit_ok|].
  apply no_exit_bind; [apply no_exit_getitem|]. intros m.
  destruct m; try (intros e H; injection H as <-; reflexivity).
  destruct (re.match_ p s); [|exact IH].
  apply no_exit_bind; [apply no_exit_getitem|]. intros repl.
  apply no_exit_bind; [apply no_exit_re_sub|]. intros out. apply no_exit_ok.
Qed.

Lemma no_exit_iter (obj : pyval) : no_exit (Py.iter obj).
Proof. destruct obj; simpl; intros e H; try discriminate; now injection H as <-. Qed.

Lemma no_exit_setitem (obj : pyval) (k : string) (v : pyval) :
  no_exit (Py.setitem obj k v).
Proof. destruct obj; simpl; intros e H; try discriminate; now injection H as <-. Qed.

Lemma no_exit_run_subs (R : pyval) (s : string) : no_exit (_run_subs R s).
Proof.
  unfold _run_subs. apply no_exit_bind; [apply no_exit_getitem|]. intros subs.
  apply no_exit_bind; [apply no_exit_iter|]. intros rules.
  apply no_exit_run_rules.
Qed.

Lemma no_exit_mapM {A B : Type} (f : A -> result B) (l : list A) :
  (forall a, no_exit (f a)) -> no_exit (mapM f l).
Proof.
  intros Hf. induction l as [|a l IH]; cbn [mapM]; [apply no_exit_ok|].
  apply no_exit_bind; [apply Hf|]. intros b.
  apply no_exit_bind; [exact IH|]. intros bs. apply no_exit_ok.
Qed.

Lemma no_exit_compile_rule (r : pyval) : no_exit (compile_rule r).
Proof.
  unfold compile_rule. apply no_exit_bind; [apply no_exit_getitem|]. intros m.
  apply no_exit_bind; [apply no_exit_re_compile|]. intros p.
  apply no_exit_setitem.
Qed.

Lemma no_exit_read_file (w : World) (path : string) : no_exit (read_file w path).
Proof.
  unfold read_file. intros e.
  destruct (fs w path) as [[[] text| |]|]; intros H; try discriminate;
    now injection H as <-.
Qed.

Lemma io_no_exit_lift {A : Type} (c : result A) : no_exit c -> io_no_exit (lift c).
Proof. intros H q. exact H. Qed.

Lemma io_no_exit_ret {A : Type} (a : A) : io_no_exit (ret a).
Proof. intros q. apply no_exit_ok. Qed.

Lemma io_no_exit_bind {A B : Type} (c : IO A) (k : A -> IO B) :
  io_no_exit c -> (forall a, io_no_exit (k a)) -> io_no_exit (bind c k).
Proof.
  intros Hc Hk q. unfold bind. specialize (Hc q).
  destruct (c q) as [q' [a|e0]]; cbn [snd] in *.
  - apply Hk.
  - intros e H. injection H as <-. exact (Hc e0 eq_refl).
Qed.

Lemma io_no_exit_for_each {A : Type} (body : A -> IO unit) (l : list A) :
  (forall a, io_no_exit (body a)) -> io_no_exit (for_each l body).
Proof.
  intros Hb. induction l as [|a l IH]; cbn [for_each]; [apply io_no_exit_ret|].
  apply io_no_exit_bind; [apply Hb | intros _; exact IH].
Qed.

Lemma io_no_exit_echo (w : World) (R : pyval) (f : string -> string)
    (instr : string) :
  io_no_exit (out <- lift (_run_subs R (f instr)) ;; click_echo w out)%io.
Proof.
  apply io_no_exit_bind; [apply io_no_exit_lift, no_exit_run_subs|].
  intros out q. apply no_exit_ok.
Qed.

Lemma io_no_exit_process_input (w : World) (R : pyval) (args : list string) :
  io_no_exit (_process_input w R args).
Proof.
  unfold _process_input. apply io_no_exit_bind.
  - apply io_no_exit_lift. unfold last_arg.
    destruct (rev args); intros e H; try discriminate. now injection H as <-.
  - intros a. destruct (String.eqb a "-"); apply io_no_exit_for_each; intros x.
    + exact (io_no_exit_echo w R Py.rstrip x).
    + exact (io_no_exit_echo w R (fun s => s) x).
Qed.

Lemma io_no_exit_parse_config (w : World) (path : string) :
  (forall text, no_exit (yaml_safe_load w text)) ->
  io_no_exit (_parse_config w path).
Proof.
  intros Hy q. rewrite parse_config_eq. cbn [snd].
  apply no_exit_bind; [apply no_exit_read_file|]. intros text.
  apply no_exit_bind; [apply Hy|]. intros config.
  apply no_exit_bind; [apply no_exit_getitem|]. intros subs.
  apply no_exit_bind; [apply no_exit_iter|]. intros rules.
  apply no_exit_bind; [apply no_exit_mapM, no_exit_compile_rule|]. intros rules'.
  destruct subs; try apply no_exit_ok. apply no_exit_setitem.
Qed.

Lemma no_exit_adhoc (m r : option string) : no_exit (_generate_cli_adhoc_rules m r).
Proof.
  unfold _generate_cli_adhoc_rules.
  destruct (Py.truthy (Py.of_option m) && Py.truthy (Py.of_option r));
    [|apply no_exit_ok].
  destruct m as [mp|], r as [rp|]; try apply no_exit_ok.
  apply no_exit_bind; [|intros p; apply no_exit_ok].
  apply no_exit_of_errors. intros e H. destruct (compile_errors mp e H); auto.
Qed.

Lemma ends_ctx_exit {A : Type} : ends_with_exit0 (@ctx_exit A).
Proof. intros q. exists (Exit 0). split; reflexivity. Qed.

Lemma ends_bind {A B : Type} (c : IO A) (k : A -> IO B) :
  io_no_exit c -> (forall a, ends_with_exit0 (k a)) -> ends_with_exit0 (bind c k).
Proof.
  intros Hc Hk q. unfold bind. specialize (Hc q).
  destruct (c q) as [q' [a|e0]]; cbn [snd] in *.
  - apply Hk.
  - exists e0. split; [reflexivity|]. intros He.
    rewrite (Hc e0 eq_refl) in He. discriminate.
Qed.

(** X16.  [main] never returns: every run ends by raising.  A run that
    gets through its inputs, and a run that prints the help text, end
    with click's [Exit] and code 0; no other exit code is ever produced,
    every other ending being the exception that stopped the run.  (The
    YAML loader is taken not to raise click's [Exit] itself.) *)
Theorem main_ends_by_raising (w : World) (m r : option string)
    (args : list string) :
  (forall text, no_exit (yaml_safe_load w text)) ->
  exists e,
    snd (main w m r args start) = Raise e
    /\ (is_exit e = true -> e = Exit 0).
Proof.
  intros Hy.
  destruct (negb (Py.truthy (Py.of_option m))
            && negb (Py.truthy (Py.of_option r))
            && match args with [] => true | _ => false end) eqn:Hgate.
  - rewrite (main_help w m r args Hgate). exists (Exit 0). split; reflexivity.
  - unfold main. rewrite Hgate.
    apply (ends_bind (ret tt)); [apply io_no_exit_ret|]. intros _.
    apply ends_bind; [apply io_no_exit_lift, no_exit_adhoc|]. intros sub_rules.
    apply ends_bind; [apply io_no_exit_lift, no_exit_get_config_filename|].
    intros config. apply ends_bind.
    + destruct (negb (Py.truthy sub_rules));
        [exact (io_no_exit_parse_config w _ Hy) | apply io_no_exit_ret].
    + intros R. apply ends_bind; [apply io_no_exit_process_input|].
      intros _. apply ends_ctx_exit.
Qed.

Lemma main_ends_by_raising_witness :
  exists e,
    snd (main configured None None ["aaa"] start) = Raise e
    /\ (is_exit e = true -> e = Exit 0).
Proof.
  apply (main_ends_by_raising configured None None ["aaa"]).
  intros text e H. discriminate.
Defined.
